(** * LogCabin RPC client session: a shallow embedding of RPC/ClientSession.cc

    The session multiplexes RPCs over one connection.  Everything the source
    does under [session.mutex] is one atomic transition here: a function
    from the session (and, for the three handle methods, the handle passed by
    reference) to the new session, together with the list of externally
    visible effects it performed (frames handed to the socket, condition
    variables notified).  Debug output (VERBOSE, WARNING) is not modelled. *)

From Stdlib Require Import ZArith String List Bool Lia Sorted.
From stdpp Require Import base option list gmap strings sorting.

Local Open Scope string_scope.
Local Open Scope Z_scope.

(** ** Data *)

(** Buffer: an opaque sequence of bytes. *)
Definition Buffer := string.

(** enum { TIMEOUT_MS = 100 }; the timer is always scheduled with
    TIMEOUT_MS * 1000 * 1000 nanoseconds. *)
Definition TIMEOUT_MS : Z := 100.
Definition TIMEOUT_NS : Z := TIMEOUT_MS * 1000 * 1000.

(** enum { PING_MESSAGE_ID = 0 }. *)
Definition PING_MESSAGE_ID : Z := 0.

(** Modelled from the spec: MessageSocket::MessageId is declared in a header
    that is not part of the sources; the spec's wire format gives it as an
    unsigned 64-bit integer.  [++nextMessageId] therefore wraps modulo 2^64. *)
Definition MessageId_bits : Z := 64.
Definition wrap_id (z : Z) : Z := z mod 2 ^ MessageId_bits.

(** ClientSession::Response *)
Module Response.
Inductive Status := WAITING | HAS_REPLY | CANCELED.

Record t := mk {
  status : Status;
  reply : Buffer;
  hasWaiter : bool
  (* ready : std::condition_variable -- notifications are effects *)
}.

(** Response::Response() *)
Definition new : t := mk WAITING EmptyString false.

Definition is_waiting (r : t) : bool :=
  match status r with WAITING => true | _ => false end.
End Response.

#[global] Instance Response_Status_eq_dec : EqDecision Response.Status.
Proof. solve_decision. Defined.

(** The shared_ptr a handle holds to its session. *)
Inductive SessionRef := ThisSession.

(** Modelled from the spec: the class OpaqueClientRPC, the caller's handle,
    is declared outside the sources.  Its members are the ones
    ClientSession.cc reads and writes; its statuses are the spec's Pending,
    Ok, Error and Canceled (the source names OK, ERROR and CANCELED), and a
    default-constructed handle is Pending. *)
Module OpaqueClientRPC.
Inductive Status := PENDING | OK | ERROR | CANCELED.

Record t := mk {
  session : option SessionRef;
  responseToken : Z;
  status : Status;
  reply : Buffer;
  errorMessage : string
}.

(** OpaqueClientRPC rpc; *)
Definition default : t := mk None 0 PENDING EmptyString EmptyString.
End OpaqueClientRPC.

#[global] Instance RPC_Status_eq_dec : EqDecision OpaqueClientRPC.Status.
Proof. solve_decision. Defined.

(** RPC::Address, as far as the session uses it. *)
Record Address := mkAddress { toString : string; isValid : bool }.

(** The MessageSocket owned by a connected session. *)
Record ClientMessageSocket := mkSocket { fd : Z; maxMessageLength : Z }.

(** ClientSession.  [timer] records what the Event::Timer was last told:
    [Some ns] after schedule(ns), [None] after deschedule() and initially. *)
Record ClientSession := mkSession {
  address : Address;
  messageSocket : option ClientMessageSocket;
  timer : option Z;
  nextMessageId : Z;
  responses : gmap Z Response.t;
  errorMessage : string;
  numActiveRPCs : Z;
  activePing : bool
}.

Definition set_timer (v : option Z) (s : ClientSession) : ClientSession :=
  mkSession (address s) (messageSocket s) v (nextMessageId s) (responses s)
            (errorMessage s) (numActiveRPCs s) (activePing s).
Definition set_nextMessageId (v : Z) (s : ClientSession) : ClientSession :=
  mkSession (address s) (messageSocket s) (timer s) v (responses s)
            (errorMessage s) (numActiveRPCs s) (activePing s).
Definition set_responses (v : gmap Z Response.t) (s : ClientSession) : ClientSession :=
  mkSession (address s) (messageSocket s) (timer s) (nextMessageId s) v
            (errorMessage s) (numActiveRPCs s) (activePing s).
Definition set_errorMessage (v : string) (s : ClientSession) : ClientSession :=
  mkSession (address s) (messageSocket s) (timer s) (nextMessageId s) (responses s)
            v (numActiveRPCs s) (activePing s).
Definition set_numActiveRPCs (v : Z) (s : ClientSession) : ClientSession :=
  mkSession (address s) (messageSocket s) (timer s) (nextMessageId s) (responses s)
            (errorMessage s) v (activePing s).
Definition set_activePing (v : bool) (s : ClientSession) : ClientSession :=
  mkSession (address s) (messageSocket s) (timer s) (nextMessageId s) (responses s)
            (errorMessage s) (numActiveRPCs s) v.
Definition set_messageSocket (v : option ClientMessageSocket) (s : ClientSession) : ClientSession :=
  mkSession (address s) v (timer s) (nextMessageId s) (responses s)
            (errorMessage s) (numActiveRPCs s) (activePing s).

(** std::string::empty() *)
Definition empty (str : string) : bool :=
  match str with EmptyString => true | String _ _ => false end.

(** What a transition does to the outside world. *)
Inductive Effect :=
| SendMessage (messageId : Z) (contents : Buffer)   (* messageSocket->sendMessage *)
| NotifyAll (messageId : Z).                        (* responses[messageId]->ready.notify_all() *)

(** The loop that both onDisconnect and the timer use to wake every waiter. *)
Definition notify_responses (s : ClientSession) : list Effect :=
  (λ kv, NotifyAll kv.1) <$> map_to_list (responses s).

(** The number of Response records still WAITING. *)
Definition waiting_count (s : ClientSession) : Z :=
  Z.of_nat (size (filter (λ kv, Response.is_waiting kv.2 = true) (responses s))).

(** A method either returns or trips one of its assert()s. *)
Inductive Outcome (A : Type) :=
| Returned (a : A)
| AssertionFailed.
Arguments Returned {A} a.
Arguments AssertionFailed {A}.

(** ** The session's methods *)

Section Methods.

(** [numActiveRPCs] is an unsigned counter declared in RPC/ClientSession.h,
    which is not part of the sources: its width is a parameter, and
    [++]/[--] wrap modulo 2^cnt_bits. *)
Variable cnt_bits : positive.

Definition wrap_cnt (z : Z) : Z := z mod 2 ^ Z.pos cnt_bits.

(** ClientSession::ClientMessageSocket::onReceiveMessage *)
Definition onReceiveMessage (s : ClientSession) (messageId : Z) (message : Buffer)
  : ClientSession * list Effect :=
  if messageId =? PING_MESSAGE_ID then
    if (0 <? numActiveRPCs s) && activePing s then
      (set_timer (Some TIMEOUT_NS) (set_activePing false s), [])
    else
      (s, [])
  else
    match responses s !! messageId with
    | None => (s, [])
    | Some response =>
        match Response.status response with
        | Response.HAS_REPLY => (s, [])
        | _ =>
            let n := wrap_cnt (numActiveRPCs s - 1) in
            let s1 := set_numActiveRPCs n s in
            let s2 := if n =? 0 then set_timer None s1
                      else set_timer (Some TIMEOUT_NS) s1 in
            let response' :=
              Response.mk Response.HAS_REPLY message (Response.hasWaiter response) in
            (set_responses (<[messageId := response']> (responses s2)) s2,
             [NotifyAll messageId])
        end
    end.

(** ClientSession::ClientMessageSocket::onDisconnect *)
Definition onDisconnect (s : ClientSession) : ClientSession * list Effect :=
  if empty (errorMessage s) then
    (set_errorMessage ("Disconnected from server " ++ toString (address s)) s,
     notify_responses s)
  else
    (s, []).

(** ClientSession::Timer::handleTimerEvent *)
Definition handleTimerEvent (s : ClientSession) : ClientSession * list Effect :=
  match messageSocket s with
  | None => (s, [])
  | Some _ =>
      if (numActiveRPCs s =? 0) || negb (empty (errorMessage s)) then
        (s, [])
      else if negb (activePing s) then
        (set_timer (Some TIMEOUT_NS) (set_activePing true s),
         [SendMessage PING_MESSAGE_ID EmptyString])
      else
        (set_errorMessage ("Server " ++ toString (address s) ++ " timed out") s,
         notify_responses s)
  end.

(** ClientSession::sendRequest *)
Definition sendRequest (s : ClientSession) (request : Buffer)
  : ClientSession * OpaqueClientRPC.t * list Effect :=
  let messageId := nextMessageId s in
  let s1 := set_nextMessageId (wrap_id (messageId + 1)) s in
  let s2 := set_responses (<[messageId := Response.new]> (responses s1)) s1 in
  let s3 := set_numActiveRPCs (wrap_cnt (numActiveRPCs s2 + 1)) s2 in
  let s4 := if numActiveRPCs s3 =? 1
            then set_timer (Some TIMEOUT_NS) (set_activePing false s3)
            else s3 in
  let sent := match messageSocket s4 with
              | Some _ => [SendMessage messageId request]
              | None => []
              end in
  let rpc := OpaqueClientRPC.mk (Some ThisSession) messageId
               (OpaqueClientRPC.status OpaqueClientRPC.default)
               (OpaqueClientRPC.reply OpaqueClientRPC.default)
               (OpaqueClientRPC.errorMessage OpaqueClientRPC.default) in
  (s4, rpc, sent).

(** ClientSession::getErrorMessage *)
Definition getErrorMessage (s : ClientSession) : string := errorMessage s.

(** ClientSession::cancel.  The handle is passed by reference and is not
    written. *)
Definition cancel (s : ClientSession) (rpc : OpaqueClientRPC.t)
  : ClientSession * OpaqueClientRPC.t * list Effect :=
  let token := OpaqueClientRPC.responseToken rpc in
  match responses s !! token with
  | None => (s, rpc, [])
  | Some response =>
      let '(s1, notified) :=
        if Response.hasWaiter response then
          (set_responses
             (<[token := Response.mk Response.CANCELED (Response.reply response)
                           (Response.hasWaiter response)]> (responses s)) s,
           [NotifyAll token])
        else
          (set_responses (delete token (responses s)) s, [])
      in
      (set_numActiveRPCs (wrap_cnt (numActiveRPCs s1 - 1)) s1, rpc, notified)
  end.

(** ClientSession::update *)
Definition update (s : ClientSession) (rpc : OpaqueClientRPC.t)
  : Outcome (ClientSession * OpaqueClientRPC.t) :=
  let token := OpaqueClientRPC.responseToken rpc in
  match responses s !! token with
  | None =>
      (* assert(rpc.status == OpaqueClientRPC::Status::CANCELED) *)
      match OpaqueClientRPC.status rpc with
      | OpaqueClientRPC.CANCELED => Returned (s, rpc)
      | _ => AssertionFailed
      end
  | Some response =>
      match Response.status response with
      | Response.HAS_REPLY =>
          Returned (set_responses (delete token (responses s)) s,
                    OpaqueClientRPC.mk None token OpaqueClientRPC.OK
                      (Response.reply response)
                      (OpaqueClientRPC.errorMessage rpc))
      | st =>
          if negb (empty (errorMessage s)) then
            Returned (set_responses (delete token (responses s)) s,
                      OpaqueClientRPC.mk None token OpaqueClientRPC.ERROR
                        (OpaqueClientRPC.reply rpc)
                        (errorMessage s))
          else
            (* assert(response->status != Response::CANCELED) *)
            match st with
            | Response.CANCELED => AssertionFailed
            | _ => Returned (s, rpc)
            end
      end
  end.

(** ClientSession::wait, one pass through the body of [while (true)] up
    to the point where the thread either returns or blocks on the
    condition variable (releasing the mutex). *)
Inductive WaitState := WaitReturns | WaitBlocks.

Definition wait_pass (s : ClientSession) (rpc : OpaqueClientRPC.t) (timeout now : Z)
  : ClientSession * OpaqueClientRPC.t * WaitState :=
  let token := OpaqueClientRPC.responseToken rpc in
  match responses s !! token with
  | None => (s, rpc, WaitReturns)
  | Some response =>
      match Response.status response with
      | Response.HAS_REPLY => (s, rpc, WaitReturns)
      | Response.CANCELED =>
          (set_responses (delete token (responses s)) s, rpc, WaitReturns)
      | Response.WAITING =>
          if negb (empty (errorMessage s)) then (s, rpc, WaitReturns)
          else if timeout <? now then (s, rpc, WaitReturns)
          else
            (set_responses
               (<[token := Response.mk (Response.status response)
                             (Response.reply response) true]> (responses s)) s,
             rpc, WaitBlocks)
      end
  end.

(** ... and the statement after wait_until returns with the mutex held
    again: [response->hasWaiter = false].  [response] is the pointer read
    before blocking; if another thread destroyed the record in between,
    the write is to freed memory ([None]). *)
Definition wait_wake (s : ClientSession) (rpc : OpaqueClientRPC.t)
  : option (ClientSession * OpaqueClientRPC.t) :=
  let token := OpaqueClientRPC.responseToken rpc in
  match responses s !! token with
  | None => None
  | Some response =>
      Some (set_responses
              (<[token := Response.mk (Response.status response)
                            (Response.reply response) false]> (responses s)) s,
            rpc)
  end.

End Methods.

(** ** Construction *)

(** What the operating system answers while the constructor runs.  errno
    after a failed connect is either EINPROGRESS or some other code. *)
Inductive Errno := EINPROGRESS | OtherErrno (code : Z).

(** One return of [loop.runForever()] in the constructor's wait loop, with
    the values the loop body then reads. *)
Record LoopExit := mkLoopExit {
  fileNotifier_count : Z;     (* fileNotifier.count *)
  getsockopt_r : Z;           (* return value of getsockopt *)
  so_error : Z;               (* SO_ERROR as stored by getsockopt *)
  clock_now : Z               (* Clock::now() *)
}.

Record ConnectEnv := mkConnectEnv {
  now_at_entry : Z;           (* Clock::now() in the std::min *)
  socket_r : Z;               (* socket(AF_INET, SOCK_STREAM|SOCK_NONBLOCK, 0) *)
  connect_r : Z;              (* connectFn(fd, ...) *)
  connect_errno : Errno;
  strerror : Z → string;
  loop_exits : list LoopExit
}.

Inductive Construction :=
| Constructed (s : ClientSession)
| Panicked                    (* PANIC("getsockopt failed: ...") *)
| NeverReturns.               (* loop.runForever() does not come back *)

(** The member initialisers of ClientSession::ClientSession. *)
Definition initial_session (addr : Address) : ClientSession :=
  mkSession addr None None 1 ∅ EmptyString 0 false.

Definition connect_failed (addr : Address) (why : string) : string :=
  "Failed to connect socket to " ++ toString addr ++ ": " ++ why.

(** The [while (true)] of the constructor. *)
Fixpoint await_connect (env : ConnectEnv) (s : ClientSession) (sockfd : Z)
    (maxLen timeout : Z) (exits : list LoopExit) : Construction :=
  match exits with
  | [] => NeverReturns
  | e :: rest =>
      if 0 <? fileNotifier_count e then
        if negb (getsockopt_r e =? 0) then Panicked
        else if negb (so_error e =? 0) then
          Constructed
            (set_errorMessage (connect_failed (address s) (strerror env (so_error e))) s)
        else
          Constructed (set_messageSocket (Some (mkSocket sockfd maxLen)) s)
      else if timeout <? clock_now e then
        Constructed (set_errorMessage (connect_failed (address s) "timeout expired") s)
      else
        await_connect env s sockfd maxLen timeout rest
  end.

(** ClientSession::ClientSession (the event loop argument carries no state
    of the session). *)
Definition construct (env : ConnectEnv) (addr : Address) (maxMessageLength timeout : Z)
  : Construction :=
  let s := initial_session addr in
  if negb (isValid addr) then
    Constructed (set_errorMessage ("Failed to resolve " ++ toString addr) s)
  else
    let timeout := Z.min timeout (now_at_entry env + 10 * 1000 * 1000 * 1000) in
    let sockfd := socket_r env in
    if sockfd <? 0 then
      Constructed (set_errorMessage "Failed to create socket" s)
    else if negb (connect_r env =? 0) then
      match connect_errno env with
      | EINPROGRESS =>
          await_connect env s sockfd maxMessageLength timeout (loop_exits env)
      | OtherErrno code =>
          Constructed (set_errorMessage (connect_failed addr (strerror env code)) s)
      end
    else
      Constructed (set_messageSocket (Some (mkSocket sockfd maxMessageLength)) s).

(** ** Runs of a session *)

(** Everything that can happen to a session once it is constructed: the
    event-loop callbacks and the caller-visible methods, the latter with the
    handle they are applied to.  A wait is two kinds of step: the pass that
    starts at the top of the loop (on entry, [EvWait]) and the pass after a
    blocked waiter woke up ([EvWake]). *)
Inductive Event :=
| EvSendRequest (request : Buffer)
| EvReceive (messageId : Z) (message : Buffer)
| EvDisconnect
| EvTimer
| EvCancel (rpc : OpaqueClientRPC.t)
| EvUpdate (rpc : OpaqueClientRPC.t)
| EvWait (rpc : OpaqueClientRPC.t) (timeout now : Z)
| EvWake (rpc : OpaqueClientRPC.t) (timeout now : Z).

Section Runs.

Variable cnt_bits : positive.

(** The session after one event.  An update whose assertion fails and a
    wake-up whose record is gone leave the session as it was. *)
Definition step (s : ClientSession) (ev : Event) : ClientSession :=
  match ev with
  | EvSendRequest request => (sendRequest cnt_bits s request).1.1
  | EvReceive messageId message => (onReceiveMessage cnt_bits s messageId message).1
  | EvDisconnect => (onDisconnect s).1
  | EvTimer => (handleTimerEvent s).1
  | EvCancel rpc => (cancel cnt_bits s rpc).1.1
  | EvUpdate rpc =>
      match update s rpc with
      | Returned (s', _) => s'
      | AssertionFailed => s
      end
  | EvWait rpc timeout now => (wait_pass s rpc timeout now).1.1
  | EvWake rpc timeout now =>
      match wait_wake s rpc with
      | Some (s', rpc') => (wait_pass s' rpc' timeout now).1.1
      | None => s
      end
  end.

Definition run (s : ClientSession) (evs : list Event) : ClientSession :=
  fold_left step evs s.

(** A session is reachable when some construction returned it, or a
    reachable session stepped to it. *)
Inductive reachable : ClientSession → Prop :=
| reachable_constructed env addr maxLen timeout s :
    construct env addr maxLen timeout = Constructed s →
    reachable s
| reachable_step s ev :
    reachable s →
    reachable (step s ev).

End Runs.

(** The message ids handed out along a run, in order, and how many
    requests the run sends. *)
Fixpoint assigned (cnt_bits : positive) (s : ClientSession) (evs : list Event) : list Z :=
  match evs with
  | [] => []
  | EvSendRequest request :: rest =>
      OpaqueClientRPC.responseToken (sendRequest cnt_bits s request).1.2
        :: assigned cnt_bits (step cnt_bits s (EvSendRequest request)) rest
  | ev :: rest => assigned cnt_bits (step cnt_bits s ev) rest
  end.

Definition is_send (ev : Event) : bool :=
  match ev with EvSendRequest _ => true | _ => false end.

Definition sends (evs : list Event) : nat := length (filter (λ ev, is_send ev = true) evs).

(** ** The caller's handle *)

(** Modelled from the spec: OpaqueClientRPC::update is not part of the
    sources.  The handle's operations delegate to the session the handle
    references (4.8); once the handle is resolved its session reference is
    empty and further updates are no-ops (4.3). *)
Definition rpc_update (s : ClientSession) (rpc : OpaqueClientRPC.t)
  : Outcome (ClientSession * OpaqueClientRPC.t) :=
  match OpaqueClientRPC.session rpc with
  | None => Returned (s, rpc)
  | Some ThisSession => update s rpc
  end.

(** Modelled from the spec: OpaqueClientRPC::cancel is not part of the
    sources.  A call resolves exactly once, from Pending to one of Ok, Error,
    Canceled (8), so cancel acts on a Pending handle only; it delegates to
    the session (4.8), after which the handle reports Canceled (scenarios 4
    and 5) and, being resolved, no longer references the session (4.8). *)
Definition rpc_cancel (cnt_bits : positive) (s : ClientSession) (rpc : OpaqueClientRPC.t)
  : ClientSession * OpaqueClientRPC.t * list Effect :=
  match OpaqueClientRPC.status rpc with
  | OpaqueClientRPC.PENDING =>
      let '(s', rpc', effects) :=
        match OpaqueClientRPC.session rpc with
        | Some ThisSession => cancel cnt_bits s rpc
        | None => (s, rpc, [])
        end in
      (s',
       OpaqueClientRPC.mk None (OpaqueClientRPC.responseToken rpc')
         OpaqueClientRPC.CANCELED (OpaqueClientRPC.reply rpc')
         (OpaqueClientRPC.errorMessage rpc'),
       effects)
  | _ => (s, rpc, [])
  end.

(** Modelled from the spec: the handle's wait is not part of the sources; it
    delegates to the session the handle references (4.8).  This is its first
    pass; a blocked waiter continues inside ClientSession::wait. *)
Definition rpc_wait (s : ClientSession) (rpc : OpaqueClientRPC.t) (timeout now : Z)
  : ClientSession * OpaqueClientRPC.t * WaitState :=
  match OpaqueClientRPC.session rpc with
  | None => (s, rpc, WaitReturns)
  | Some ThisSession => wait_pass s rpc timeout now
  end.

(** A session together with the handles its callers hold: those its
    sendRequest has returned and the copies made of them, in the order they
    came to be. *)
Record World := mkWorld {
  the_session : ClientSession;
  handles : list OpaqueClientRPC.t
}.

(** What callers and the event loop do; callers name a handle by its
    position.  Modelled from the spec: handles are moved and cloned freely
    (3); [ACopy] adds a copy of a handle, with the same session reference,
    token, status, reply and error message, as a handle of its own. *)
Inductive Action :=
| ASendRequest (request : Buffer)
| AReceive (messageId : Z) (message : Buffer)
| ADisconnect
| ATimer
| ACancel (h : nat)
| AUpdate (h : nat)
| AWait (h : nat) (timeout now : Z)
| AWake (h : nat) (timeout now : Z)
| ACopy (h : nat).

Section Worlds.

Variable cnt_bits : positive.

Definition act (w : World) (a : Action) : World :=
  let s := the_session w in
  match a with
  | ASendRequest request =>
      let '(s', rpc, _) := sendRequest cnt_bits s request in
      mkWorld s' (handles w ++ [rpc])
  | AReceive messageId message =>
      mkWorld (onReceiveMessage cnt_bits s messageId message).1 (handles w)
  | ADisconnect => mkWorld (onDisconnect s).1 (handles w)
  | ATimer => mkWorld (handleTimerEvent s).1 (handles w)
  | ACancel h =>
      match handles w !! h with
      | None => w
      | Some rpc =>
          let '(s', rpc', _) := rpc_cancel cnt_bits s rpc in
          mkWorld s' (<[h := rpc']> (handles w))
      end
  | AUpdate h =>
      match handles w !! h with
      | None => w
      | Some rpc =>
          match rpc_update s rpc with
          | Returned (s', rpc') => mkWorld s' (<[h := rpc']> (handles w))
          | AssertionFailed => w
          end
      end
  | AWait h timeout now =>
      match handles w !! h with
      | None => w
      | Some rpc =>
          let '(s', rpc', _) := rpc_wait s rpc timeout now in
          mkWorld s' (<[h := rpc']> (handles w))
      end
  | AWake h timeout now =>
      match handles w !! h with
      | None => w
      | Some rpc =>
          match wait_wake s rpc with
          | None => w
          | Some (s', rpc') =>
              let '(s'', rpc'', _) := wait_pass s' rpc' timeout now in
              mkWorld s'' (<[h := rpc'']> (handles w))
          end
      end
  | ACopy h =>
      match handles w !! h with
      | None => w
      | Some rpc => mkWorld s (handles w ++ [rpc])
      end
  end.


End Worlds.

(** ClientSession::wait as a whole.  While the waiter is blocked the mutex
    is free and other threads run: the schedule lists, for every time the
    waiter blocks, what the others make of the session before it wakes up,
    and the clock reading it then compares its deadline with. *)
Inductive WaitResult :=
| WaitDone (s : ClientSession) (rpc : OpaqueClientRPC.t)      (* wait returned *)
| WaitPending (s : ClientSession) (rpc : OpaqueClientRPC.t)   (* blocked, schedule used up *)
| WaitFreed.                                                  (* woke up to a destroyed record *)

Fixpoint wait (s : ClientSession) (rpc : OpaqueClientRPC.t) (timeout now : Z)
    (schedule : list ((ClientSession → ClientSession) * Z)) : WaitResult :=
  match wait_pass s rpc timeout now with
  | (s1, rpc1, WaitReturns) => WaitDone s1 rpc1
  | (s1, rpc1, WaitBlocks) =>
      match schedule with
      | [] => WaitPending s1 rpc1
      | (others, now') :: rest =>
          match wait_wake (others s1) rpc1 with
          | None => WaitFreed
          | Some (s2, rpc2) => wait s2 rpc2 timeout now' rest
          end
      end
  end.

(** ** Runs of a world *)

Arguments wrap_id : simpl never.

Definition world_run (cnt_bits : positive) (w : World) (acts : list Action) : World :=
  fold_left (act cnt_bits) acts w.

(** ** Concrete sessions used by the examples *)

Definition example_env : ConnectEnv :=
  mkConnectEnv 0 3 0 EINPROGRESS (λ _, "Connection refused") [].
Definition example_address : Address := mkAddress "192.168.1.1:61023" true.
Definition example_session : ClientSession :=
  set_messageSocket (Some (mkSocket 3 1024)) (initial_session example_address).

(** A session whose name resolution failed. *)
Definition unresolved_address : Address := mkAddress "nowhere" false.
Definition born_failed_session : ClientSession :=
  set_errorMessage "Failed to resolve nowhere" (initial_session unresolved_address).

(** * The filesystem storage module (libDLogStorage/FilesystemStorageModule.cc) *)

(** LogEntry, with the members the storage module reads and writes; the
    class is declared outside the sources.  NO_DATA is [None]. *)
Record LogEntry := mkLogEntry {
  logId : Z;
  entryId : Z;
  createTime : Z;
  data : option Buffer;
  invalidations : list Z
}.

(** ProtoBuf::DumbFilesystem::LogEntry, the message that the file of a log
    entry holds: what write() serializes and read() parses. *)
Record EntryFile := mkEntryFile {
  create_time : Z;
  file_data : option Buffer;          (* has_data() / data() *)
  file_invalidations : list Z
}.

(** EntryId is scanned and printed with "%016lx": an unsigned long of 64
    bits, so [headId + 1] wraps modulo 2^64. *)
Definition wrap_entry (z : Z) : Z := z mod 2 ^ 64.

Module FilesystemLog.

(** FilesystemLog: the log's id (Log::getLogId), its directory, the id of
    its newest entry and the entries in memory. *)
Record t := mk {
  getLogId : Z;
  path : string;
  headId : Z;
  entries : list LogEntry
}.

(** The directory of a log: the files named after entry ids
    (getEntryPath), each with the message its bytes parse to, or [None] for a
    file that ParseFromZeroCopyStream rejects. *)
Abbreviation Directory := (gmap Z (option EntryFile)).

(** The loop of readFrom: [reversed] is what the reverse iterator has still
    to visit, [ret] the deque built by push_front. *)
Fixpoint readFrom_loop (reversed : list LogEntry) (start : Z) (ret : list LogEntry)
  : list LogEntry :=
  match reversed with
  | [] => ret
  | entry :: rest =>
      if entryId entry <? start then ret
      else readFrom_loop rest start (entry :: ret)
  end.

(** FilesystemLog::readFrom *)
Definition readFrom (log : t) (start : Z) : list LogEntry :=
  readFrom_loop (rev (entries log)) start [].

(** The message FilesystemLog::write builds from an entry. *)
Definition written (entry : LogEntry) : EntryFile :=
  mkEntryFile (createTime entry) (data entry) (invalidations entry).

(** FilesystemLog::write.  The file is created with O_CREAT|O_EXCL: [None]
    is the PANIC when a file of that name exists already.  Otherwise the
    file holds the serialized message, which parses back to itself; other
    failures of open and of the serializer are outside the model. *)
Definition write (dir : Directory) (entry : LogEntry) : option Directory :=
  match dir !! entryId entry with
  | Some _ => None
  | None => Some (<[entryId entry := Some (written entry)]> dir)
  end.

(** errno after a failed mkdir, which the constructor compares with EEXIST
    only. *)
Inductive MkdirErrno := EEXIST | OtherMkdirErrno (code : Z).

Section Constants.

(** NO_ENTRY_ID is declared outside the sources. *)
Variable NO_ENTRY_ID : Z.

(** A log with no entries yet: the member initialisers of the constructor. *)
Definition empty_log (logId : Z) (path : string) : t := mk logId path NO_ENTRY_ID [].

(** FilesystemLog::append.  The entry is passed by reference and gets its
    ids; the result has the directory, the log and the entry handed to
    appendCompletion->appended, or is [None] where write panics. *)
Definition append (dir : Directory) (log : t) (entry : LogEntry)
  : option (Directory * t * LogEntry) :=
  let newId := if headId log =? NO_ENTRY_ID then 0 else wrap_entry (headId log + 1) in
  let entry' := mkLogEntry (getLogId log) newId (createTime entry) (data entry)
                  (invalidations entry) in
  match write dir entry' with
  | None => None
  | Some dir' => Some (dir', mk (getLogId log) (path log) newId (entries log ++ [entry']), entry')
  end.

(** Appending several entries, one after the other; the last component
    lists the entries reported to the completion callbacks. *)
Fixpoint append_all (dir : Directory) (log : t) (new : list LogEntry)
  : option (Directory * t * list LogEntry) :=
  match new with
  | [] => Some (dir, log, [])
  | entry :: rest =>
      match append dir log entry with
      | None => None
      | Some (dir1, log1, appended) =>
          match append_all dir1 log1 rest with
          | None => None
          | Some (dir2, log2, reported) => Some (dir2, log2, appended :: reported)
          end
      end
  end.

(** FilesystemLog::read.  The result is [None] where the code panics (the
    file cannot be opened or parsed) and where the model ends (data of 2^32
    bytes or more, which does not fit the uint32_t length of a Chunk).
    Chunk::makeChunk is declared outside the sources; it is taken to return
    a chunk other than NO_DATA that holds the bytes it was given. *)
Definition read (dir : Directory) (log : t) (id : Z) : option t :=
  match dir !! id with
  | None | Some None => None
  | Some (Some contents) =>
      let oversize :=
        match file_data contents with
        | Some bytes => 2 ^ 32 <=? Z.of_nat (String.length bytes)
        | None => false
        end in
      if oversize then None
      else
        let entry := mkLogEntry (getLogId log) id (create_time contents)
                       (file_data contents) (file_invalidations contents) in
        Some (mk (getLogId log) (path log)
                (if (headId log =? NO_ENTRY_ID) || (headId log <? id) then id
                 else headId log)
                (entries log ++ [entry]))
  end.

(** The loop of the constructor over the sorted entry ids. *)
Fixpoint read_all (dir : Directory) (log : t) (ids : list Z) : option t :=
  match ids with
  | [] => Some log
  | id :: rest =>
      match read dir log id with
      | None => None
      | Some log' => read_all dir log' rest
      end
  end.

(** The constructor's body after its mkdir: [entryIds] is what getEntryIds
    returned; they are sorted and read in that order. *)
Definition open (dir : Directory) (logId : Z) (path : string)
    (entryIds : list Z) : option t :=
  read_all dir (empty_log logId path) (merge_sort Z.le entryIds).

(** FilesystemLog::FilesystemLog as a whole.  [mkdir_r] and [mkdir_errno]
    are what mkdir answered; the result is [None] where the code panics: when
    mkdir failed with an errno other than EEXIST, and where [open] does. *)
Definition new (mkdir_r : Z) (mkdir_errno : MkdirErrno) (dir : Directory)
    (logId : Z) (path : string) (entryIds : list Z) : option t :=
  if negb (mkdir_r =? 0) then
    match mkdir_errno with
    | EEXIST => open dir logId path entryIds
    | OtherMkdirErrno _ => None
    end
  else open dir logId path entryIds.

End Constants.

End FilesystemLog.

(** ** Vocabulary for the properties of the log *)

(** The id that append gives the next entry. *)
Definition next_id (NO_ENTRY_ID : Z) (log : FilesystemLog.t) : Z :=
  if FilesystemLog.headId log =? NO_ENTRY_ID then 0
  else wrap_entry (FilesystemLog.headId log + 1).

(** The entry that append stores for the [i]-th of some new entries when
    the first of them gets id [base]. *)
Definition stored (lid base : Z) (i : nat) (entry : LogEntry) : LogEntry :=
  mkLogEntry lid (base + Z.of_nat i) (createTime entry) (data entry) (invalidations entry).

(** A directory with the files of some entries added. *)
Definition with_files (dir : FilesystemLog.Directory) (es : list LogEntry)
  : FilesystemLog.Directory :=
  foldl (λ d e, <[entryId e := Some (FilesystemLog.written e)]> d) dir es.

(** The entry that read builds from the file of an id. *)
Definition entry_of (lid id : Z) (contents : EntryFile) : LogEntry :=
  mkLogEntry lid id (create_time contents) (file_data contents)
    (file_invalidations contents).

(** The data of a message fits the 32-bit length of a Chunk. *)
Definition fits_chunk (bytes : option Buffer) : Prop :=
  match bytes with
  | Some b => Z.of_nat (String.length b) < 2 ^ 32
  | None => True
  end.

(** read succeeds on this id: the file is there, parses and fits. *)
Definition readable (dir : FilesystemLog.Directory) (id : Z) : Prop :=
  ∃ contents, dir !! id = Some (Some contents) ∧ fits_chunk (file_data contents).


(** * Properties *)

Lemma example_session_constructed :
  construct example_env example_address 1024 0 = Constructed example_session.
Proof. reflexivity. Defined.

Lemma born_failed_session_constructed :
  construct example_env unresolved_address 1024 0 = Constructed born_failed_session.
Proof. reflexivity. Defined.

(** ** What each method leaves alone *)

Ltac cases :=
  repeat (simpl in *;
          match goal with
          | |- context [match ?x with _ => _ end] => destruct x eqn:?
          | H : context [match ?x with _ => _ end] |- _ => destruct x eqn:?
          end);
  simpl in *.

Section Frames.

Variable cnt_bits : positive.

Lemma empty_false_iff str : empty str = false ↔ str ≠ EmptyString.
Proof. destruct str; simpl; split; congruence. Qed.

Lemma connect_failed_nonempty addr why : empty (connect_failed addr why) = false.
Proof. reflexivity. Qed.

Lemma sendRequest_errorMessage s request :
  errorMessage (sendRequest cnt_bits s request).1.1 = errorMessage s.
Proof. unfold sendRequest; simpl. cases; reflexivity. Qed.

Lemma onReceiveMessage_errorMessage s messageId message :
  errorMessage (onReceiveMessage cnt_bits s messageId message).1 = errorMessage s.
Proof. unfold onReceiveMessage. cases; reflexivity. Qed.

Lemma cancel_errorMessage s rpc :
  errorMessage (cancel cnt_bits s rpc).1.1 = errorMessage s.
Proof. unfold cancel. cases; simplify_eq; reflexivity. Qed.

Lemma update_errorMessage s rpc s' rpc' :
  update s rpc = Returned (s', rpc') → errorMessage s' = errorMessage s.
Proof. unfold update. cases; intros; simplify_eq; reflexivity. Qed.

Lemma wait_pass_errorMessage s rpc timeout now :
  errorMessage (wait_pass s rpc timeout now).1.1 = errorMessage s.
Proof. unfold wait_pass. cases; reflexivity. Qed.

Lemma wait_wake_errorMessage s rpc s' rpc' :
  wait_wake s rpc = Some (s', rpc') → errorMessage s' = errorMessage s.
Proof. unfold wait_wake. cases; intros; simplify_eq; reflexivity. Qed.

Lemma onDisconnect_failed s :
  empty (errorMessage s) = false → onDisconnect s = (s, []).
Proof. unfold onDisconnect. intros ->. reflexivity. Qed.

Lemma handleTimerEvent_failed s :
  empty (errorMessage s) = false → handleTimerEvent s = (s, []).
Proof.
  unfold handleTimerEvent. intros ->.
  destruct (messageSocket s); [|reflexivity].
  by rewrite orb_true_r.
Qed.

Lemma step_errorMessage s ev :
  empty (errorMessage s) = false →
  errorMessage (step cnt_bits s ev) = errorMessage s.
Proof.
  intros Hfailed. destruct ev; cbn [step].
  - apply sendRequest_errorMessage.
  - apply onReceiveMessage_errorMessage.
  - by rewrite onDisconnect_failed.
  - by rewrite handleTimerEvent_failed.
  - apply cancel_errorMessage.
  - destruct (update s rpc) as [[s' rpc']|] eqn:Hu; [|reflexivity].
    eapply update_errorMessage, Hu.
  - apply wait_pass_errorMessage.
  - destruct (wait_wake s rpc) as [[s' rpc']|] eqn:Hw; [|reflexivity].
    rewrite wait_pass_errorMessage. eapply wait_wake_errorMessage, Hw.
Qed.

Lemma run_errorMessage evs : ∀ s,
  empty (errorMessage s) = false →
  errorMessage (run cnt_bits s evs) = errorMessage s.
Proof.
  induction evs as [|ev evs IH]; intros s Hfailed; [reflexivity|].
  simpl. rewrite IH; rewrite step_errorMessage; auto.
Qed.

(** The socket slot is written by the constructor only. *)
Lemma step_messageSocket s ev :
  messageSocket (step cnt_bits s ev) = messageSocket s.
Proof.
  destruct ev; cbn [step].
  - unfold sendRequest; simpl. cases; congruence.
  - unfold onReceiveMessage. cases; congruence.
  - unfold onDisconnect. cases; congruence.
  - unfold handleTimerEvent. cases; congruence.
  - unfold cancel. cases; simplify_eq; simpl; congruence.
  - unfold update. cases; simplify_eq; simpl; congruence.
  - unfold wait_pass. cases; congruence.
  - unfold wait_wake, wait_pass. cases; simplify_eq; simpl; congruence.
Qed.

Lemma step_keeps_failed s ev :
  empty (errorMessage s) = false →
  empty (errorMessage (step cnt_bits s ev)) = false.
Proof. intros H. by rewrite step_errorMessage. Qed.

Lemma await_connect_socket_or_error env s0 sockfd maxLen timeout exits s :
  await_connect env s0 sockfd maxLen timeout exits = Constructed s →
  messageSocket s = None → empty (errorMessage s) = false.
Proof.
  induction exits as [|e rest IH]; simpl; [discriminate|].
  cases; intros; simplify_eq; simpl in *; try discriminate; auto.
Qed.

Lemma construct_socket_or_error env addr maxLen timeout s :
  construct env addr maxLen timeout = Constructed s →
  messageSocket s = None → empty (errorMessage s) = false.
Proof.
  unfold construct.
  cases; intros; simplify_eq; simpl in *; try discriminate; auto.
  eapply await_connect_socket_or_error; eauto.
Qed.

(** A reachable session without a socket was born failed. *)
Lemma reachable_socket_or_error s :
  reachable cnt_bits s →
  messageSocket s = None → empty (errorMessage s) = false.
Proof.
  induction 1 as [env addr maxLen timeout s Hc|s ev Hr IH].
  - eapply construct_socket_or_error, Hc.
  - rewrite step_messageSocket. intros Hnone.
    apply step_keeps_failed, IH, Hnone.
Qed.

Lemma reachable_run s evs :
  reachable cnt_bits s → reachable cnt_bits (run cnt_bits s evs).
Proof.
  revert s. induction evs as [|ev evs IH]; intros s Hr; [exact Hr|].
  simpl. apply IH. by constructor.
Defined.

End Frames.

(** ** The session error is terminal *)

(** C4.  Once the session's error message is non-empty, no run of events
    (inbound frames, disconnects, timer expiries, sendRequest, cancel, update,
    wait) changes it, and in every later state the timer handler and the
    disconnect handler return the session as they found it, with no effect
    on the outside. *)
Theorem error_is_terminal (cnt_bits : positive) (s : ClientSession) :
  empty (errorMessage s) = false →
  ∀ evs,
    errorMessage (run cnt_bits s evs) = errorMessage s ∧
    handleTimerEvent (run cnt_bits s evs) = (run cnt_bits s evs, []) ∧
    onDisconnect (run cnt_bits s evs) = (run cnt_bits s evs, []).
Proof.
  intros Hfailed evs.
  assert (Hlater : empty (errorMessage (run cnt_bits s evs)) = false)
    by (by rewrite run_errorMessage).
  split; [by apply run_errorMessage|].
  split; [by apply handleTimerEvent_failed | by apply onDisconnect_failed].
Qed.

Lemma error_is_terminal_witness :
  let s := (onDisconnect example_session).1 in
  let evs := [EvSendRequest "A"; EvTimer; EvDisconnect; EvReceive 1 "x"; EvTimer] in
  empty (errorMessage s) = false ∧
  errorMessage (run 32 s evs) = "Disconnected from server 192.168.1.1:61023".
Proof.
  split; [reflexivity|].
  exact (proj1 (error_is_terminal 32 (onDisconnect example_session).1 eq_refl
                  [EvSendRequest "A"; EvTimer; EvDisconnect; EvReceive 1 "x"; EvTimer])).
Defined.

(** ** The liveness timer *)

Lemma notify_responses_all s k :
  is_Some (responses s !! k) → In (NotifyAll k) (notify_responses s).
Proof.
  intros [r Hr]. unfold notify_responses.
  apply list_elem_of_In, list_elem_of_fmap. exists (k, r). split; [reflexivity|].
  by apply elem_of_map_to_list.
Qed.

(** C5.  In a reachable session the timer handler is the four-state
    machine: with calls active, no error and no ping outstanding it hands the
    frame (0, empty) to the socket, sets activePing and rearms for
    TIMEOUT_MS; with calls active, no error and a ping outstanding it sets
    the error to "Server <address> timed out" and notifies the condition
    variable of every registered call; with no call active or with an error
    it changes nothing and has no effect. *)
Theorem timer_state_machine (cnt_bits : positive) (s : ClientSession) :
  reachable cnt_bits s →
  (0 < numActiveRPCs s → empty (errorMessage s) = true → activePing s = false →
   handleTimerEvent s =
     (set_timer (Some (TIMEOUT_MS * 1000 * 1000)) (set_activePing true s),
      [SendMessage 0 EmptyString])) ∧
  (0 < numActiveRPCs s → empty (errorMessage s) = true → activePing s = true →
   handleTimerEvent s =
     (set_errorMessage ("Server " ++ toString (address s) ++ " timed out") s,
      notify_responses s) ∧
   ∀ k, is_Some (responses s !! k) → In (NotifyAll k) (notify_responses s)) ∧
  (numActiveRPCs s = 0 ∨ empty (errorMessage s) = false →
   handleTimerEvent s = (s, [])).
Proof.
  intros Hr.
  assert (Hsock : empty (errorMessage s) = true → is_Some (messageSocket s)).
  { intros He. destruct (messageSocket s) eqn:Hs; [eauto|].
    pose proof (reachable_socket_or_error cnt_bits s Hr Hs). congruence. }
  split; [|split].
  - intros Hn He Hp. destruct (Hsock He) as [sock Hs].
    unfold handleTimerEvent. rewrite Hs, He, Hp.
    destruct (Z.eqb_spec (numActiveRPCs s) 0); [lia|reflexivity].
  - intros Hn He Hp. destruct (Hsock He) as [sock Hs]. split.
    + unfold handleTimerEvent. rewrite Hs, He, Hp.
      destruct (Z.eqb_spec (numActiveRPCs s) 0); [lia|reflexivity].
    + intros k. apply notify_responses_all.
  - intros [Hz|Hf].
    + unfold handleTimerEvent. rewrite Hz. by destruct (messageSocket s).
    + by apply handleTimerEvent_failed.
Qed.

Lemma timer_state_machine_witness :
  let suspicious := run 32 example_session [EvSendRequest "A"] in
  let pinged := run 32 example_session [EvSendRequest "A"; EvTimer] in
  (handleTimerEvent suspicious).2 = [SendMessage 0 EmptyString] ∧
  activePing pinged = true ∧
  timer pinged = Some 100000000 ∧
  errorMessage (handleTimerEvent pinged).1 = "Server 192.168.1.1:61023 timed out" ∧
  (handleTimerEvent pinged).2 = [NotifyAll 1] ∧
  handleTimerEvent example_session = (example_session, []).
Proof.
  pose (reach := λ evs,
          reachable_run 32 example_session evs
            (reachable_constructed 32 _ _ _ _ _ example_session_constructed)).
  pose (suspicious := timer_state_machine 32 _ (reach [EvSendRequest "A"])).
  pose (pinged := timer_state_machine 32 _ (reach [EvSendRequest "A"; EvTimer])).
  pose (idle := timer_state_machine 32 _ (reach [])).
  split; [rewrite (proj1 suspicious); [reflexivity|reflexivity|reflexivity|reflexivity]|].
  split; [reflexivity|]. split; [reflexivity|].
  destruct (proj1 (proj2 pinged) eq_refl eq_refl eq_refl) as [Hexp _].
  split; [rewrite Hexp; reflexivity|].
  split; [rewrite Hexp; reflexivity|].
  apply (proj2 (proj2 idle)). left. reflexivity.
Defined.

(** ** Inbound frames *)

(** C6.  A frame with a message id above 0: when a record is registered
    under the id and is not yet HAS_REPLY, the payload becomes its reply, its
    status becomes HAS_REPLY, its condition variable is notified,
    numActiveRPCs is decremented, and the timer is descheduled if the count
    is now zero and rearmed for TIMEOUT_MS otherwise, nothing else changing;
    when no record is registered or the record is already HAS_REPLY, the
    session is returned unchanged and nothing is notified. *)
Theorem reply_dispatch (cnt_bits : positive) (s : ClientSession)
    (messageId : Z) (message : Buffer) :
  0 < messageId →
  (∀ response,
     responses s !! messageId = Some response →
     Response.status response ≠ Response.HAS_REPLY →
     ∃ s', onReceiveMessage cnt_bits s messageId message = (s', [NotifyAll messageId]) ∧
       responses s' =
         <[messageId := Response.mk Response.HAS_REPLY message
                          (Response.hasWaiter response)]> (responses s) ∧
       numActiveRPCs s' = wrap_cnt cnt_bits (numActiveRPCs s - 1) ∧
       (0 < numActiveRPCs s < 2 ^ Z.pos cnt_bits →
        numActiveRPCs s' = numActiveRPCs s - 1) ∧
       timer s' = (if numActiveRPCs s' =? 0 then None
                   else Some (TIMEOUT_MS * 1000 * 1000)) ∧
       errorMessage s' = errorMessage s ∧
       activePing s' = activePing s ∧
       nextMessageId s' = nextMessageId s ∧
       messageSocket s' = messageSocket s ∧
       address s' = address s) ∧
  (responses s !! messageId = None ∨
   (∃ response, responses s !! messageId = Some response ∧
                Response.status response = Response.HAS_REPLY) →
   onReceiveMessage cnt_bits s messageId message = (s, [])).
Proof.
  intros Hpos.
  assert (Hping : (messageId =? PING_MESSAGE_ID) = false)
    by (apply Z.eqb_neq; unfold PING_MESSAGE_ID; lia).
  split.
  - intros response Hlook Hst. unfold onReceiveMessage. rewrite Hping, Hlook.
    eexists. split.
    + destruct (Response.status response); [reflexivity|congruence|reflexivity].
    + destruct (wrap_cnt cnt_bits (numActiveRPCs s - 1) =? 0) eqn:Hz; simpl;
        rewrite ?Hz; repeat split; try reflexivity;
        intros; unfold wrap_cnt; rewrite Z.mod_small; lia.
  - unfold onReceiveMessage. rewrite Hping.
    intros [->|(response & -> & ->)]; reflexivity.
Qed.

Lemma reply_dispatch_witness :
  let s := run 32 example_session [EvSendRequest "A"; EvSendRequest "B"] in
  let s' := (onReceiveMessage 32 s 1 "reply-A").1 in
  responses s' !! 1 = Some (Response.mk Response.HAS_REPLY "reply-A" false) ∧
  numActiveRPCs s' = 1 ∧
  timer s' = Some 100000000 ∧
  onReceiveMessage 32 s' 1 "again" = (s', []) ∧
  onReceiveMessage 32 s' 7 "stray" = (s', []).
Proof.
  pose (s := run 32 example_session [EvSendRequest "A"; EvSendRequest "B"]).
  destruct (proj1 (reply_dispatch 32 s 1 "reply-A" eq_refl) Response.new eq_refl)
    as (s' & Hrun & Hresp & Hcnt & Hdec & Htimer & _).
  { discriminate. }
  change (run 32 example_session [EvSendRequest "A"; EvSendRequest "B"]) with s.
  cbv zeta. rewrite Hrun. cbn [fst].
  split; [rewrite Hresp; apply lookup_insert_eq|].
  split; [rewrite Hcnt; reflexivity|].
  split; [rewrite Htimer, Hcnt; reflexivity|].
  split.
  - apply (proj2 (reply_dispatch 32 s' 1 "again" eq_refl)).
    right. eexists. split; [rewrite Hresp; apply lookup_insert_eq|reflexivity].
  - apply (proj2 (reply_dispatch 32 s' 7 "stray" eq_refl)).
    left. rewrite Hresp. rewrite lookup_insert_ne by discriminate. reflexivity.
Defined.

(** ** Resolving a call *)

(** C7.  update on a handle whose record is registered: a HAS_REPLY record
    gives the handle the reply and status OK, empties its session reference
    and removes the record; otherwise a non-empty session error is copied
    into the handle, which becomes ERROR, loses its session reference, and
    the record is removed; otherwise whatever update returns is the session
    and the handle it was given (for a WAITING record it does return).  A
    handle that update resolved has no session reference and no record, and
    the handle's own update is from then on a no-op in any session state. *)
Theorem update_resolves (s : ClientSession) (rpc : OpaqueClientRPC.t)
    (response : Response.t) :
  let token := OpaqueClientRPC.responseToken rpc in
  responses s !! token = Some response →
  (Response.status response = Response.HAS_REPLY →
   update s rpc =
     Returned (set_responses (delete token (responses s)) s,
               OpaqueClientRPC.mk None token OpaqueClientRPC.OK
                 (Response.reply response) (OpaqueClientRPC.errorMessage rpc))) ∧
  (Response.status response ≠ Response.HAS_REPLY →
   empty (errorMessage s) = false →
   update s rpc =
     Returned (set_responses (delete token (responses s)) s,
               OpaqueClientRPC.mk None token OpaqueClientRPC.ERROR
                 (OpaqueClientRPC.reply rpc) (errorMessage s))) ∧
  (Response.status response ≠ Response.HAS_REPLY →
   empty (errorMessage s) = true →
   (Response.status response = Response.WAITING → update s rpc = Returned (s, rpc)) ∧
   (∀ s' rpc', update s rpc = Returned (s', rpc') → s' = s ∧ rpc' = rpc)) ∧
  (∀ s' rpc',
     update s rpc = Returned (s', rpc') →
     OpaqueClientRPC.status rpc' = OpaqueClientRPC.OK ∨
     OpaqueClientRPC.status rpc' = OpaqueClientRPC.ERROR →
     OpaqueClientRPC.status rpc = OpaqueClientRPC.PENDING →
     OpaqueClientRPC.session rpc' = None ∧
     responses s' !! token = None ∧
     ∀ later, rpc_update later rpc' = Returned (later, rpc')).
Proof.
  intros token Hlook. unfold update. fold token. rewrite Hlook.
  split; [intros ->; reflexivity|].
  split; [intros Hst ->; simpl; by destruct (Response.status response)|].
  split.
  - intros Hst He. rewrite He. simpl. split.
    + intros ->. reflexivity.
    + intros s' rpc' Hu. by destruct (Response.status response); simplify_eq.
  - intros s' rpc' Hu Hres Hpend. unfold rpc_update.
    destruct (Response.status response), (empty (errorMessage s));
      simpl in *; simplify_eq; simpl in *;
      try (destruct Hres; congruence);
      (split; [reflexivity|]; split; [apply lookup_delete_eq|reflexivity]).
Qed.

Lemma update_resolves_witness :
  let s := run 32 example_session [EvSendRequest "A"; EvReceive 1 "reply-A"] in
  let rpc := (sendRequest 32 example_session "A").1.2 in
  update s rpc =
    Returned (set_responses ∅ s,
              OpaqueClientRPC.mk None 1 OpaqueClientRPC.OK "reply-A" EmptyString).
Proof.
  exact (proj1 (update_resolves
                  (run 32 example_session [EvSendRequest "A"; EvReceive 1 "reply-A"])
                  (sendRequest 32 example_session "A").1.2
                  (Response.mk Response.HAS_REPLY "reply-A" false)
                  eq_refl) eq_refl).
Defined.

(** ** Waiting *)




Lemma wait_returns_at_once s rpc timeout now s' schedule :
  wait_pass s rpc timeout now = (s', rpc, WaitReturns) →
  wait s rpc timeout now schedule = WaitDone s' rpc.
Proof. intros Hp. destruct schedule; simpl; rewrite Hp; reflexivity. Qed.





(** ** Message ids *)

Lemma wrap_id_small z : 0 ≤ z < 2 ^ 64 → wrap_id z = z.
Proof. intros. unfold wrap_id, MessageId_bits. apply Z.mod_small. lia. Qed.

Lemma wrap_id_range z : 0 ≤ wrap_id z < 2 ^ 64.
Proof. unfold wrap_id, MessageId_bits. apply Z.mod_pos_bound. lia. Qed.

Lemma wrap_id_plus z i : wrap_id (wrap_id z + i) = wrap_id (z + i).
Proof. unfold wrap_id. apply Zplus_mod_idemp_l. Qed.

Lemma sends_cons ev evs :
  sends (ev :: evs) = if is_send ev then S (sends evs) else sends evs.
Proof.
  unfold sends. rewrite filter_cons.
  destruct (decide (is_send ev = true)) as [->|Hn]; [reflexivity|].
  by destruct (is_send ev).
Qed.

Lemma sends_app evs evs' : sends (evs ++ evs') = (sends evs + sends evs')%nat.
Proof. unfold sends. by rewrite filter_app, length_app. Qed.

Section Ids.

Variable cnt_bits : positive.

Lemma step_nextMessageId s ev :
  nextMessageId (step cnt_bits s ev) =
    if is_send ev then wrap_id (nextMessageId s + 1) else nextMessageId s.
Proof.
  destruct ev; cbn [step is_send].
  - unfold sendRequest; simpl. cases; reflexivity.
  - unfold onReceiveMessage. cases; reflexivity.
  - unfold onDisconnect. cases; reflexivity.
  - unfold handleTimerEvent. cases; reflexivity.
  - unfold cancel. cases; simplify_eq; reflexivity.
  - unfold update. cases; simplify_eq; reflexivity.
  - unfold wait_pass. cases; reflexivity.
  - unfold wait_wake, wait_pass. cases; simplify_eq; reflexivity.
Qed.

Lemma construct_nextMessageId env addr maxLen timeout s :
  construct env addr maxLen timeout = Constructed s → nextMessageId s = 1.
Proof.
  unfold construct.
  assert (Hloop : ∀ exits s0 fd t,
             nextMessageId s0 = 1 →
             await_connect env s0 fd maxLen t exits = Constructed s →
             nextMessageId s = 1).
  { induction exits as [|e rest IH]; simpl; [discriminate|].
    intros s0 fd t H1. cases; intros; simplify_eq; simpl; eauto. }
  cases; intros; simplify_eq; simpl; eauto.
  eapply Hloop; [|eassumption]. reflexivity.
Qed.

Lemma assigned_no_sends evs : ∀ s, sends evs = 0%nat → assigned cnt_bits s evs = [].
Proof.
  induction evs as [|ev evs IH]; intros s; [reflexivity|].
  rewrite sends_cons. destruct ev; simpl; try discriminate; apply IH.
Qed.

(** As long as the counter does not wrap, a run hands out consecutive ids
    starting from the counter's value. *)
Lemma assigned_consecutive evs : ∀ s,
  0 ≤ nextMessageId s →
  nextMessageId s + Z.of_nat (sends evs) ≤ 2 ^ 64 →
  assigned cnt_bits s evs =
    (λ i, nextMessageId s + Z.of_nat i) <$> seq 0 (sends evs).
Proof.
  induction evs as [|ev evs IH]; intros s Hlo Hhi; [reflexivity|].
  rewrite sends_cons in *.
  pose proof (step_nextMessageId s ev) as Hnext.
  destruct ev; cbn [is_send] in *;
    try (cbn [assigned]; rewrite IH; rewrite Hnext; auto; fail).
  cbn [assigned seq fmap list_fmap]. f_equal.
  { unfold sendRequest; simpl. lia. }
  destruct (decide (sends evs = 0%nat)) as [Hz|Hnz].
  - rewrite Hz. simpl. by apply assigned_no_sends.
  - rewrite wrap_id_small in Hnext by lia.
    rewrite IH by (rewrite Hnext; lia).
    rewrite <- fmap_S_seq, <- list_fmap_compose.
    apply list_fmap_ext. intros _ i _. unfold compose. cbv beta. rewrite Hnext. lia.
Qed.

(** However long the run, the ids of a run of sends are the counter's
    successive values modulo 2^64. *)
Lemma assigned_repeat_sends request n : ∀ s,
  0 ≤ nextMessageId s < 2 ^ 64 →
  assigned cnt_bits s (repeat (EvSendRequest request) n) =
    (λ i, wrap_id (nextMessageId s + Z.of_nat i)) <$> seq 0 n.
Proof.
  induction n as [|n IH]; intros s Hrange; [reflexivity|].
  cbn [repeat assigned seq fmap list_fmap]. f_equal.
  { unfold sendRequest; simpl. rewrite wrap_id_small; lia. }
  pose proof (step_nextMessageId s (EvSendRequest request)) as Hnext.
  cbn [is_send] in Hnext.
  rewrite IH by (rewrite Hnext; apply wrap_id_range).
  rewrite <- fmap_S_seq, <- list_fmap_compose.
  apply list_fmap_ext. intros _ i _. unfold compose. cbv beta.
  rewrite Hnext, wrap_id_plus.
  f_equal. lia.
Qed.

End Ids.

(** C3, as the code has it.  Along every run of a constructed session that
    sends fewer than 2^64 requests, the k-th request is assigned message id
    k: every assigned id is nonzero and strictly greater than every id
    assigned before it. *)
Theorem message_ids_increase (cnt_bits : positive) env addr maxLen timeout
    (s : ClientSession) (evs : list Event) :
  construct env addr maxLen timeout = Constructed s →
  Z.of_nat (sends evs) < 2 ^ 64 →
  assigned cnt_bits s evs = Z.of_nat <$> seq 1 (sends evs) ∧
  Forall (λ id, id ≠ 0) (assigned cnt_bits s evs) ∧
  StronglySorted Z.lt (assigned cnt_bits s evs).
Proof.
  intros Hc Hbound. apply construct_nextMessageId in Hc.
  assert (Hids : assigned cnt_bits s evs = Z.of_nat <$> seq 1 (sends evs)).
  { rewrite assigned_consecutive by lia.
    rewrite <- fmap_S_seq, <- list_fmap_compose.
    apply list_fmap_ext. intros _ i _. simpl. lia. }
  split; [exact Hids|]. rewrite Hids.
  cut (∀ from, (1 ≤ from)%nat →
         Forall (λ id, id ≠ 0) (Z.of_nat <$> seq from (sends evs)) ∧
         StronglySorted Z.lt (Z.of_nat <$> seq from (sends evs))).
  { intros Hall. apply Hall. lia. }
  clear. induction (sends evs) as [|k IH]; intros from Hfrom; simpl.
  - split; constructor.
  - destruct (IH (S from)) as [Hnz Hsorted]; [lia|].
    split; constructor; auto; try lia.
    apply List.Forall_forall. intros id Hin.
    apply in_map_iff in Hin as (i & <- & Hin).
    apply in_seq in Hin. lia.
Qed.

Lemma message_ids_increase_witness :
  assigned 32 example_session
    [EvSendRequest "A"; EvTimer; EvSendRequest "B"; EvReceive 1 "x"; EvSendRequest "C"]
  = [1; 2; 3].
Proof.
  exact (proj1 (message_ids_increase 32 _ _ _ _ example_session
                  [EvSendRequest "A"; EvTimer; EvSendRequest "B"; EvReceive 1 "x";
                   EvSendRequest "C"]
                  example_session_constructed eq_refl)).
Defined.

Lemma wrapped_counter_assigns_zero (cnt_bits : positive) (s : ClientSession) request (n : nat) :
  nextMessageId s = 1 →
  Z.of_nat n = 2 ^ 64 - 1 →
  In 0 (assigned cnt_bits s (repeat (EvSendRequest request) (S n))).
Proof.
  intros Hone Hn. rewrite assigned_repeat_sends by lia.
  apply in_map_iff. exists n. split.
  - rewrite Hone, Hn. reflexivity.
  - apply in_seq. lia.
Qed.

(** C3, as the spec has it, fails: 2^64 - 1 requests leave the counter at
    0, which is not skipped, so the request after them is assigned the id
    reserved for pings. *)
Lemma id_zero_assigned_after_wrap :
  In 0 (assigned 32 example_session
          (repeat (EvSendRequest EmptyString) (S (N.to_nat (2 ^ 64 - 1))))).
Proof.
  apply wrapped_counter_assigns_zero; [reflexivity|].
  rewrite N_nat_Z. reflexivity.
Qed.

(** ** Cancellation against replies *)

(** C1.  The code at the failing input: a request is sent, a thread blocks
    in wait on its handle, the call is cancelled (the record becomes
    CANCELED and stays registered for the waiter), and then the reply frame
    arrives.  onReceiveMessage turns the CANCELED record into HAS_REPLY and
    decrements numActiveRPCs a second time (from 0, wrapping); the waiter
    then returns through the HAS_REPLY branch and the record is never
    removed.  The handle itself still reports CANCELED. *)
Theorem late_reply_overwrites_cancel :
  let rpc := (sendRequest 32 example_session "A").1.2 in
  let blocked := run 32 example_session [EvSendRequest "A"; EvWait rpc 1000 0] in
  let canceled := step 32 blocked (EvCancel rpc) in
  let replied := step 32 canceled (EvReceive 1 "late") in
  let woken := step 32 replied (EvWake rpc 1000 0) in
  reachable 32 woken ∧
  responses blocked !! 1 = Some (Response.mk Response.WAITING EmptyString true) ∧
  responses canceled !! 1 = Some (Response.mk Response.CANCELED EmptyString true) ∧
  numActiveRPCs canceled = 0 ∧
  responses replied !! 1 = Some (Response.mk Response.HAS_REPLY "late" true) ∧
  numActiveRPCs replied = 2 ^ 32 - 1 ∧
  responses woken !! 1 = Some (Response.mk Response.HAS_REPLY "late" false) ∧
  let w := world_run 32 (mkWorld example_session [])
             [ASendRequest "A"; AWait 0 1000 0; ACancel 0; AReceive 1 "late";
              AWake 0 1000 0] in
  the_session w = woken ∧
  handles w = [OpaqueClientRPC.mk None 1 OpaqueClientRPC.CANCELED EmptyString EmptyString].
Proof.
  cbv zeta. split.
  { do 3 apply reachable_step.
    apply reachable_run, (reachable_constructed 32 _ _ _ _ _ example_session_constructed). }
  do 7 (split; [vm_compute; reflexivity|]). vm_compute. reflexivity.
Qed.

(** ** The count of active calls *)

(** C2.  The code at the failing input: two requests are sent, the reply to
    the first arrives, and the first call is cancelled before its handle was
    updated.  cancel decrements numActiveRPCs for a record that is already
    HAS_REPLY, so the count is 0 while the second call's record is still
    WAITING; the timer handler then takes the session for idle. *)
Theorem cancel_after_reply_miscounts :
  let rpc := (sendRequest 32 example_session "A").1.2 in
  let s := run 32 example_session
             [EvSendRequest "A"; EvSendRequest "B"; EvReceive 1 "reply-A"; EvCancel rpc] in
  reachable 32 s ∧
  numActiveRPCs s = 0 ∧
  waiting_count s = 1 ∧
  responses s !! 2 = Some Response.new ∧
  handleTimerEvent s = (s, []) ∧
  the_session (world_run 32 (mkWorld example_session [])
                 [ASendRequest "A"; ASendRequest "B"; AReceive 1 "reply-A"; ACancel 0]) = s.
Proof.
  cbv zeta. split.
  { apply reachable_run, (reachable_constructed 32 _ _ _ _ _ example_session_constructed). }
  do 4 (split; [vm_compute; reflexivity|]). vm_compute. reflexivity.
Qed.

(** ** What the methods do to the registry *)

Section Records.

Variable cnt_bits : positive.

Lemma sendRequest_fields s request :
  ∃ s' effects,
    sendRequest cnt_bits s request =
      (s', OpaqueClientRPC.mk (Some ThisSession) (nextMessageId s)
             OpaqueClientRPC.PENDING EmptyString EmptyString, effects) ∧
    nextMessageId s' = wrap_id (nextMessageId s + 1) ∧
    responses s' = <[nextMessageId s := Response.new]> (responses s).
Proof.
  unfold sendRequest. do 2 eexists. split; [reflexivity|].
  simpl. by destruct (_ =? 1).
Qed.

Lemma onDisconnect_responses s : responses (onDisconnect s).1 = responses s.
Proof. unfold onDisconnect. by destruct (empty _). Qed.

Lemma handleTimerEvent_responses s : responses (handleTimerEvent s).1 = responses s.
Proof. unfold handleTimerEvent. cases; reflexivity. Qed.

Lemma update_other s rpc s' rpc' k :
  update s rpc = Returned (s', rpc') →
  k ≠ OpaqueClientRPC.responseToken rpc →
  responses s' !! k = responses s !! k.
Proof.
  unfold update. intros Hu Hne.
  destruct (responses s !! _) as [response|].
  - destruct (Response.status response), (empty (errorMessage s));
      simpl in Hu; simplify_eq; simpl; rewrite ?lookup_delete_ne by done; reflexivity.
  - destruct (OpaqueClientRPC.status rpc); simplify_eq; reflexivity.
Qed.

End Records.

Section WorldRuns.

Variable cnt_bits : positive.


End WorldRuns.

(** ** Past the wrap of the message id counter *)

Section Wrap.

Variable cnt_bits : positive.









End Wrap.


(** ** Which ids are registered *)

Section Registered.

Variable cnt_bits : positive.

Lemma step_registered s ev k :
  is_Some (responses (step cnt_bits s ev) !! k) →
  is_Some (responses s !! k) ∨ (is_send ev = true ∧ k = nextMessageId s).
Proof.
  destruct ev; cbn [step is_send].
  - destruct (sendRequest_fields cnt_bits s request) as (s' & eff & -> & _ & Hresp).
    cbn [fst]. rewrite Hresp.
    destruct (decide (nextMessageId s = k)) as [<-|Hne]; [by right|].
    rewrite lookup_insert_ne by done. by left.
  - unfold onReceiveMessage. cases; auto;
      (destruct (decide (messageId = k)) as [<-|Hne];
       [intros _; left; eauto | rewrite lookup_insert_ne by done; auto]).
  - rewrite onDisconnect_responses. auto.
  - rewrite handleTimerEvent_responses. auto.
  - unfold cancel. cases; simplify_eq; simpl; auto.
    + destruct (decide (OpaqueClientRPC.responseToken rpc = k)) as [<-|Hne];
        [intros _; left; eauto | rewrite lookup_insert_ne by done; auto].
    + destruct (decide (OpaqueClientRPC.responseToken rpc = k)) as [<-|Hne];
        [rewrite lookup_delete_eq; by intros [] | rewrite lookup_delete_ne by done; auto].
  - destruct (update s rpc) as [[s' rpc']|] eqn:Hu; [|auto].
    destruct (decide (k = OpaqueClientRPC.responseToken rpc)) as [->|Hne].
    + unfold update in Hu. cases; simplify_eq; simpl; auto;
        try (rewrite lookup_delete_eq; by intros []).
      intros [r Hr]. congruence.
    + rewrite (update_other s rpc s' rpc' k Hu Hne). auto.
  - unfold wait_pass. cases; auto;
      (destruct (decide (OpaqueClientRPC.responseToken rpc = k)) as [<-|Hne];
       [intros _; left; eauto
       |rewrite ?lookup_insert_ne, ?lookup_delete_ne by done; auto]).
  - unfold wait_wake, wait_pass.
    destruct (responses s !! OpaqueClientRPC.responseToken rpc) as [r|] eqn:Hr; [|auto].
    cbn [set_responses responses errorMessage]. rewrite lookup_insert_eq.
    cbn [Response.status Response.reply].
    destruct (decide (OpaqueClientRPC.responseToken rpc = k)) as [<-|Hne];
      [intros _; left; eauto|].
    cases; simpl;
      rewrite ?lookup_delete_ne, ?lookup_insert_ne by done; auto.
Qed.

Lemma run_registered evs : ∀ s,
  0 ≤ nextMessageId s →
  nextMessageId s + Z.of_nat (sends evs) < 2 ^ 64 →
  (∀ k, is_Some (responses s !! k) → k < nextMessageId s) →
  nextMessageId (run cnt_bits s evs) = nextMessageId s + Z.of_nat (sends evs) ∧
  (∀ k, is_Some (responses (run cnt_bits s evs) !! k) →
        k < nextMessageId (run cnt_bits s evs)).
Proof.
  induction evs as [|ev evs IH]; intros s Hlo Hhi Hkeys.
  - cbn [run fold_left]. split; [unfold sends; simpl; lia|auto].
  - cbn [run fold_left].
    change (fold_left (step cnt_bits) ?l ?s) with (run cnt_bits s l).
    rewrite sends_cons in *.
    pose proof (step_nextMessageId cnt_bits s ev) as Hnext.
    pose proof (step_registered s ev) as Hreg.
    destruct (is_send ev).
    + rewrite wrap_id_small in Hnext by lia.
      destruct (IH (step cnt_bits s ev)) as [Hn Hk]; [lia|lia| |].
      * intros k Hsome. destruct (Hreg k Hsome) as [Hold|[_ ->]]; [|lia].
        apply Hkeys in Hold. lia.
      * split; [lia|exact Hk].
    + destruct (IH (step cnt_bits s ev)) as [Hn Hk]; [lia|lia| |].
      * intros k Hsome. destruct (Hreg k Hsome) as [Hold|[? _]]; [|done].
        apply Hkeys in Hold. lia.
      * split; [lia|exact Hk].
Qed.

Lemma construct_responses env addr maxLen timeout s :
  construct env addr maxLen timeout = Constructed s → responses s = ∅.
Proof.
  unfold construct.
  assert (Hloop : ∀ exits s0 fd t,
             responses s0 = ∅ →
             await_connect env s0 fd maxLen t exits = Constructed s →
             responses s = ∅).
  { induction exits as [|e rest IH]; simpl; [discriminate|].
    intros s0 fd t H1. cases; intros; simplify_eq; simpl; eauto. }
  cases; intros; simplify_eq; simpl; eauto.
  eapply Hloop; [|eassumption]. reflexivity.
Qed.

(** In a run with fewer than 2^64 - 1 requests the next id is one past the
    number of requests, is not registered, and was not assigned before. *)
Lemma next_id_is_fresh env addr maxLen timeout s0 evs :
  construct env addr maxLen timeout = Constructed s0 →
  Z.of_nat (sends evs) < 2 ^ 64 - 1 →
  let s := run cnt_bits s0 evs in
  nextMessageId s = 1 + Z.of_nat (sends evs) ∧
  responses s !! nextMessageId s = None ∧
  ¬ In (nextMessageId s) (assigned cnt_bits s0 evs).
Proof.
  intros Hc Hbound s.
  pose proof (construct_nextMessageId _ _ _ _ _ Hc) as Hone.
  pose proof (construct_responses _ _ _ _ _ Hc) as Hempty.
  destruct (run_registered evs s0) as [Hn Hk]; [lia|lia| |].
  { intros k. rewrite Hempty, lookup_empty. by intros []. }
  fold s in Hn, Hk. split; [lia|]. split.
  - destruct (responses s !! nextMessageId s) eqn:Hl; [|reflexivity].
    specialize (Hk (nextMessageId s)). rewrite Hl in Hk.
    specialize (Hk ltac:(eauto)). lia.
  - rewrite assigned_consecutive by lia.
    rewrite in_map_iff. intros (i & Hi & Hin). apply in_seq in Hin. lia.
Qed.

End Registered.

(** ** Requests on a failed session *)

Lemma sendRequest_failed_core (cnt_bits : positive) (s : ClientSession)
    (request : Buffer) :
  empty (errorMessage s) = false →
  ∃ s' rpc effects,
    sendRequest cnt_bits s request = (s', rpc, effects) ∧
    rpc = OpaqueClientRPC.mk (Some ThisSession) (nextMessageId s)
            OpaqueClientRPC.PENDING EmptyString EmptyString ∧
    nextMessageId s' = wrap_id (nextMessageId s + 1) ∧
    responses s' = <[nextMessageId s := Response.new]> (responses s) ∧
    numActiveRPCs s' = wrap_cnt cnt_bits (numActiveRPCs s + 1) ∧
    (numActiveRPCs s' = 1 →
     timer s' = Some (TIMEOUT_MS * 1000 * 1000) ∧ activePing s' = false) ∧
    (numActiveRPCs s' ≠ 1 → timer s' = timer s ∧ activePing s' = activePing s) ∧
    effects = match messageSocket s with
              | Some _ => [SendMessage (nextMessageId s) request]
              | None => []
              end ∧
    errorMessage s' = errorMessage s ∧
    update s' rpc =
      Returned (set_responses (delete (nextMessageId s) (responses s')) s',
                OpaqueClientRPC.mk None (nextMessageId s) OpaqueClientRPC.ERROR EmptyString
                  (errorMessage s)).
Proof.
  intros Hfailed. unfold sendRequest. do 3 eexists. split; [reflexivity|].
  split; [reflexivity|].
  destruct (wrap_cnt cnt_bits (numActiveRPCs s + 1) =? 1) eqn:Hone; simpl; rewrite ?Hone;
    simpl; (repeat split; try reflexivity; try (intros; apply Z.eqb_eq in Hone; congruence);
            try (intros; apply Z.eqb_neq in Hone; congruence);
            try (by destruct (messageSocket s));
            unfold update; simpl; rewrite lookup_insert_eq; simpl; by rewrite Hfailed).
Qed.

(** C10.  On a session whose error is already set, sendRequest still takes
    the next message id and advances the counter, registers a new WAITING
    record under the id, increments numActiveRPCs, arms the timer (and clears
    activePing) when the count is now 1, and hands the frame to the socket
    exactly when there is one; the handle it returns is PENDING with no error
    message, and update applied to it then makes it ERROR with a copy of the
    session's error.  In a session reached from its construction with fewer
    than 2^64 - 1 requests the id is moreover nonzero, not registered and not
    assigned before. *)
Theorem sendRequest_on_failed_session (cnt_bits : positive) (s : ClientSession)
    (request : Buffer) :
  empty (errorMessage s) = false →
  ∃ s' rpc effects,
    sendRequest cnt_bits s request = (s', rpc, effects) ∧
    rpc = OpaqueClientRPC.mk (Some ThisSession) (nextMessageId s)
            OpaqueClientRPC.PENDING EmptyString EmptyString ∧
    nextMessageId s' = wrap_id (nextMessageId s + 1) ∧
    responses s' = <[nextMessageId s := Response.new]> (responses s) ∧
    numActiveRPCs s' = wrap_cnt cnt_bits (numActiveRPCs s + 1) ∧
    (numActiveRPCs s' = 1 →
     timer s' = Some (TIMEOUT_MS * 1000 * 1000) ∧ activePing s' = false) ∧
    (numActiveRPCs s' ≠ 1 → timer s' = timer s ∧ activePing s' = activePing s) ∧
    effects = match messageSocket s with
              | Some _ => [SendMessage (nextMessageId s) request]
              | None => []
              end ∧
    errorMessage s' = errorMessage s ∧
    update s' rpc =
      Returned (set_responses (delete (nextMessageId s) (responses s')) s',
                OpaqueClientRPC.mk None (nextMessageId s) OpaqueClientRPC.ERROR EmptyString
                  (errorMessage s)) ∧
    (∀ env addr maxLen timeout s0 evs,
       construct env addr maxLen timeout = Constructed s0 →
       s = run cnt_bits s0 evs →
       Z.of_nat (sends evs) < 2 ^ 64 - 1 →
       nextMessageId s ≠ 0 ∧
       responses s !! nextMessageId s = None ∧
       ¬ In (nextMessageId s) (assigned cnt_bits s0 evs)).
Proof.
  intros Hfailed.
  destruct (sendRequest_failed_core cnt_bits s request Hfailed)
    as (s' & rpc & effects & H1 & H2 & H3 & H4 & H5 & H6 & H7 & H8 & H9 & H10).
  exists s', rpc, effects.
  do 10 (split; [assumption|]).
  intros env addr maxLen timeout s0 evs Hc -> Hbound.
  destruct (next_id_is_fresh cnt_bits _ _ _ _ s0 evs Hc Hbound) as (Hn & Hnone & Hnew).
  split; [lia|auto].
Qed.

Lemma sendRequest_on_failed_session_witness :
  let s := born_failed_session in
  (sendRequest 32 s "A").2 = [] ∧
  numActiveRPCs (sendRequest 32 s "A").1.1 = 1 ∧
  timer (sendRequest 32 s "A").1.1 = Some 100000000 ∧
  OpaqueClientRPC.status (sendRequest 32 s "A").1.2 = OpaqueClientRPC.PENDING ∧
  match update (sendRequest 32 s "A").1.1 (sendRequest 32 s "A").1.2 with
  | Returned (_, rpc') =>
      rpc' = OpaqueClientRPC.mk None 1 OpaqueClientRPC.ERROR EmptyString "Failed to resolve nowhere"
  | AssertionFailed => False
  end.
Proof.
  destruct (sendRequest_on_failed_session 32 born_failed_session "A" eq_refl)
    as (s' & rpc & effects & Hsend & Hrpc & Hnext & Hresp & Hcnt & Harm & _ & Heff & Herr
        & Hupd & _).
  cbv zeta. rewrite Hsend. cbn [fst snd].
  split; [exact Heff|].
  split; [rewrite Hcnt; reflexivity|].
  split; [apply Harm; rewrite Hcnt; reflexivity|].
  split; [rewrite Hrpc; reflexivity|].
  rewrite Hupd. reflexivity.
Defined.


(** * Further properties of the client session *)

Ltac fields :=
  cbn [fst snd set_nextMessageId set_responses set_numActiveRPCs set_timer set_activePing
         set_errorMessage set_messageSocket responses numActiveRPCs nextMessageId
         messageSocket errorMessage activePing timer address
         OpaqueClientRPC.responseToken OpaqueClientRPC.errorMessage OpaqueClientRPC.status
         OpaqueClientRPC.reply OpaqueClientRPC.session OpaqueClientRPC.default
         Response.status Response.reply Response.hasWaiter Response.new].

(** * Further properties of the session *)

(** ** Ping replies *)

(** X1.  A frame with message id 0 is a ping reply and is never delivered to
    a call: it notifies nobody and leaves the registry (even a record
    registered under id 0), the count, the error and the id counter alone.
    With calls active and a ping outstanding it clears activePing and rearms
    the timer for TIMEOUT_MS; in every other state the session is returned
    unchanged. *)
Theorem ping_reply_dispatch (cnt_bits : positive) (s : ClientSession) (message : Buffer) :
  (onReceiveMessage cnt_bits s 0 message).2 = [] ∧
  responses (onReceiveMessage cnt_bits s 0 message).1 = responses s ∧
  numActiveRPCs (onReceiveMessage cnt_bits s 0 message).1 = numActiveRPCs s ∧
  errorMessage (onReceiveMessage cnt_bits s 0 message).1 = errorMessage s ∧
  nextMessageId (onReceiveMessage cnt_bits s 0 message).1 = nextMessageId s ∧
  (0 < numActiveRPCs s → activePing s = true →
   activePing (onReceiveMessage cnt_bits s 0 message).1 = false ∧
   timer (onReceiveMessage cnt_bits s 0 message).1 = Some (TIMEOUT_MS * 1000 * 1000)) ∧
  (numActiveRPCs s ≤ 0 ∨ activePing s = false →
   (onReceiveMessage cnt_bits s 0 message).1 = s).
Proof.
  unfold onReceiveMessage. cbn [Z.eqb PING_MESSAGE_ID].
  destruct (0 <? numActiveRPCs s) eqn:Hn, (activePing s) eqn:Hp; cbn.
  all: do 5 (split; [reflexivity|]).
  all: split; [intros Hpos Hping; try discriminate; try (apply Z.ltb_ge in Hn; lia); auto|].
  all: intros [Hle|Hfalse]; try reflexivity; try discriminate.
  apply Z.ltb_lt in Hn. lia.
Qed.

Lemma ping_reply_dispatch_witness :
  let pinged := run 32 example_session [EvSendRequest "A"; EvTimer] in
  activePing pinged = true ∧
  activePing (onReceiveMessage 32 pinged 0 EmptyString).1 = false ∧
  (onReceiveMessage 32 example_session 0 EmptyString).1 = example_session.
Proof.
  split; [reflexivity|]. split.
  - exact (proj1 (proj1 (proj2 (proj2 (proj2 (proj2 (proj2
             (ping_reply_dispatch 32 (run 32 example_session [EvSendRequest "A"; EvTimer])
                EmptyString)))))) eq_refl eq_refl)).
  - apply (proj2 (proj2 (proj2 (proj2 (proj2 (proj2
             (ping_reply_dispatch 32 example_session EmptyString))))))).
    right. reflexivity.
Defined.

(** ** Disconnects *)

(** X2.  A disconnect on a session without an error sets the error to
    "Disconnected from server <address>", notifies every registered call and
    changes nothing else (the timer stays as it was).  Afterwards a registered
    call whose reply had already arrived still resolves as OK with that
    reply, every other registered call resolves as ERROR with the disconnect
    message, and wait on any handle returns at once. *)
Theorem disconnect_fails_calls (s : ClientSession) :
  empty (errorMessage s) = true →
  let s' := (onDisconnect s).1 in
  s' = set_errorMessage ("Disconnected from server " ++ toString (address s)) s ∧
  (onDisconnect s).2 = notify_responses s ∧
  (∀ k, is_Some (responses s !! k) → In (NotifyAll k) (onDisconnect s).2) ∧
  ∀ rpc,
    (∀ response,
       responses s !! OpaqueClientRPC.responseToken rpc = Some response →
       update s' rpc =
         Returned
           (set_responses (delete (OpaqueClientRPC.responseToken rpc) (responses s)) s',
            match Response.status response with
            | Response.HAS_REPLY =>
                OpaqueClientRPC.mk None (OpaqueClientRPC.responseToken rpc)
                  OpaqueClientRPC.OK (Response.reply response)
                  (OpaqueClientRPC.errorMessage rpc)
            | _ =>
                OpaqueClientRPC.mk None (OpaqueClientRPC.responseToken rpc)
                  OpaqueClientRPC.ERROR (OpaqueClientRPC.reply rpc)
                  ("Disconnected from server " ++ toString (address s))
            end)) ∧
    ∀ timeout now schedule,
      ∃ s'', wait s' rpc timeout now schedule = WaitDone s'' rpc.
Proof.
  intros He s'.
  assert (Hs' : s' = set_errorMessage ("Disconnected from server " ++ toString (address s)) s).
  { unfold s', onDisconnect. by rewrite He. }
  split; [exact Hs'|].
  split; [unfold onDisconnect; by rewrite He|].
  split.
  { intros k Hk. unfold onDisconnect. rewrite He. cbn [snd].
    by apply notify_responses_all. }
  intros rpc. rewrite Hs'. split.
  - intros response Hlook. unfold update. cbn [responses set_errorMessage errorMessage].
    rewrite Hlook. by destruct (Response.status response).
  - intros timeout now schedule.
    assert (∃ s'', wait_pass
                     (set_errorMessage ("Disconnected from server " ++ toString (address s)) s)
                     rpc timeout now = (s'', rpc, WaitReturns)) as [s'' Hp].
    { unfold wait_pass. cbn [responses set_errorMessage errorMessage].
      destruct (responses s !! _) as [response|]; [|eauto].
      destruct (Response.status response); cbn; eauto. }
    exists s''. by apply wait_returns_at_once.
Qed.

Lemma disconnect_fails_calls_witness :
  let s := run 32 example_session [EvSendRequest "A"; EvSendRequest "B"; EvReceive 1 "x"] in
  errorMessage (onDisconnect s).1 = "Disconnected from server 192.168.1.1:61023" ∧
  (onDisconnect s).2 = notify_responses s.
Proof.
  pose proof (disconnect_fails_calls
                (run 32 example_session [EvSendRequest "A"; EvSendRequest "B"; EvReceive 1 "x"])
                eq_refl) as (Hs & Hn & _).
  split; [|exact Hn].
  cbv zeta in Hs. cbv zeta. rewrite Hs. reflexivity.
Defined.

(** ** Construction *)

Lemma await_connect_outcome env s0 sockfd maxLen timeout exits s :
  await_connect env s0 sockfd maxLen timeout exits = Constructed s →
  s = set_messageSocket (Some (mkSocket sockfd maxLen)) s0 ∨
  ∃ why, s = set_errorMessage (connect_failed (address s0) why) s0.
Proof.
  induction exits as [|e rest IH]; cbn [await_connect]; [discriminate|].
  destruct (0 <? fileNotifier_count e).
  - destruct (negb (getsockopt_r e =? 0)); [discriminate|].
    destruct (negb (so_error e =? 0)); intros [= <-]; eauto.
  - destruct (timeout <? clock_now e); [intros [= <-]; eauto|exact IH].
Qed.

Lemma construct_cases env addr maxLen timeout (s : ClientSession) :
  construct env addr maxLen timeout = Constructed s →
  (s = set_messageSocket (Some (mkSocket (socket_r env) maxLen)) (initial_session addr) ∧
   isValid addr = true ∧ 0 ≤ socket_r env) ∨
  (∃ msg,
     s = set_errorMessage msg (initial_session addr) ∧
     empty msg = false ∧
     ((msg = "Failed to resolve " ++ toString addr ∧ isValid addr = false) ∨
      (msg = "Failed to create socket" ∧ socket_r env < 0) ∨
      (∃ why, msg = connect_failed addr why))).
Proof.
  unfold construct.
  destruct (isValid addr) eqn:Hvalid; cbn [negb].
  2:{ intros [= <-]. right. eexists. split; [reflexivity|]. split; [reflexivity|]. auto. }
  destruct (socket_r env <? 0) eqn:Hfd.
  { intros [= <-]. right. eexists. split; [reflexivity|]. split; [reflexivity|].
    right. left. split; [reflexivity|]. by apply Z.ltb_lt. }
  apply Z.ltb_ge in Hfd.
  destruct (negb (connect_r env =? 0)).
  - destruct (connect_errno env).
    + intros Hc. apply await_connect_outcome in Hc as [->|[why ->]]; [by left|].
      right. eexists. split; [reflexivity|]. split; [reflexivity|]. eauto.
    + intros [= <-]. right. eexists. split; [reflexivity|]. split; [reflexivity|]. eauto.
  - intros [= <-]. by left.
Qed.

(** X3.  A session the constructor returns is the freshly initialised
    session (id counter 1, no records, no active calls, timer unscheduled)
    with exactly one of two things added: a message socket on the descriptor
    socket() returned, for a valid address, and no error; or a non-empty
    error ("Failed to resolve <address>", "Failed to create socket" or
    "Failed to connect socket to <address>: <reason>") and no socket. *)
Theorem constructed_connected_or_failed env addr maxLen timeout (s : ClientSession) :
  construct env addr maxLen timeout = Constructed s →
  (s = set_messageSocket (Some (mkSocket (socket_r env) maxLen)) (initial_session addr) ∧
   isValid addr = true ∧ 0 ≤ socket_r env) ∨
  (∃ msg,
     s = set_errorMessage msg (initial_session addr) ∧
     empty msg = false ∧
     ((msg = "Failed to resolve " ++ toString addr ∧ isValid addr = false) ∨
      (msg = "Failed to create socket" ∧ socket_r env < 0) ∨
      (∃ why, msg = connect_failed addr why))).
Proof. apply construct_cases. Qed.

Lemma constructed_connected_or_failed_witness :
  example_session =
    set_messageSocket (Some (mkSocket 3 1024)) (initial_session example_address) ∧
  ∃ msg, born_failed_session = set_errorMessage msg (initial_session unresolved_address).
Proof.
  split; [reflexivity|].
  destruct (constructed_connected_or_failed _ _ _ _ _ born_failed_session_constructed)
    as [[_ [Hv _]]|(msg & Hs & _)]; [discriminate Hv|].
  exists msg. exact Hs.
Defined.

Lemma await_connect_never_returns env s0 sockfd maxLen timeout exits :
  await_connect env s0 sockfd maxLen timeout exits = NeverReturns ↔
  Forall (λ e, fileNotifier_count e ≤ 0 ∧ clock_now e ≤ timeout) exits.
Proof.
  induction exits as [|e rest IH]; cbn [await_connect].
  - split; [constructor|reflexivity].
  - destruct (Z.ltb_spec 0 (fileNotifier_count e)) as [Hcount|Hcount].
    + split.
      * destruct (negb (getsockopt_r e =? 0)); [discriminate|].
        destruct (negb (so_error e =? 0)); discriminate.
      * intros Hall. apply Forall_cons in Hall as [[? _] _]. lia.
    + destruct (Z.ltb_spec timeout (clock_now e)) as [Hlate|Hearly].
      * split; [discriminate|].
        intros Hall. apply Forall_cons in Hall as [[_ ?] _]. lia.
      * rewrite IH. split.
        -- intros Hall. by constructor.
        -- intros Hall. by apply Forall_cons in Hall as [_ ?].
Qed.

Lemma await_connect_panics env s0 sockfd maxLen timeout exits :
  await_connect env s0 sockfd maxLen timeout exits = Panicked →
  ∃ e, In e exits ∧ 0 < fileNotifier_count e ∧ getsockopt_r e ≠ 0.
Proof.
  induction exits as [|e rest IH]; cbn [await_connect]; [discriminate|].
  destruct (Z.ltb_spec 0 (fileNotifier_count e)) as [Hcount|Hcount].
  - destruct (Z.eqb_spec (getsockopt_r e) 0) as [Hz|Hnz]; cbn [negb].
    + destruct (negb (so_error e =? 0)); discriminate.
    + intros _. exists e. split; [by left|auto].
  - destruct (timeout <? clock_now e); [discriminate|].
    intros Hp. destruct (IH Hp) as (e' & Hin & Hrest). exists e'. split; [by right|auto].
Qed.

(** X4.  The constructor fails to return exactly when the address is valid,
    the socket was created, connect answered EINPROGRESS, and every return of
    the event loop was spurious: no file event, and a clock not past the
    deadline, which is the earlier of the caller's timeout and ten seconds
    after entry.  It panics only when a file event was seen and getsockopt
    failed. *)
Theorem construct_termination env addr maxLen timeout :
  (construct env addr maxLen timeout = NeverReturns ↔
   isValid addr = true ∧ 0 ≤ socket_r env ∧ connect_r env ≠ 0 ∧
   connect_errno env = EINPROGRESS ∧
   Forall (λ e, fileNotifier_count e ≤ 0 ∧
                clock_now e ≤ Z.min timeout (now_at_entry env + 10 * 1000 * 1000 * 1000))
          (loop_exits env)) ∧
  (construct env addr maxLen timeout = Panicked →
   ∃ e, In e (loop_exits env) ∧ 0 < fileNotifier_count e ∧ getsockopt_r e ≠ 0).
Proof.
  unfold construct. split.
  - destruct (isValid addr); cbn [negb]; [|split; [discriminate|by intros [? _]]].
    destruct (Z.ltb_spec (socket_r env) 0) as [Hfd|Hfd];
      [split; [discriminate|intros (_ & ? & _); lia]|].
    destruct (Z.eqb_spec (connect_r env) 0) as [Hr|Hr]; cbn [negb];
      [split; [discriminate|intros (_ & _ & ? & _); lia]|].
    destruct (connect_errno env) eqn:Herrno;
      [|split; [discriminate|intros (_ & _ & _ & ? & _); discriminate]].
    rewrite await_connect_never_returns. split; [auto|]. by intros (_ & _ & _ & _ & ?).
  - destruct (isValid addr); cbn [negb]; [|discriminate].
    destruct (socket_r env <? 0); [discriminate|].
    destruct (negb (connect_r env =? 0)); [|discriminate].
    destruct (connect_errno env); [|discriminate].
    apply await_connect_panics.
Qed.

Lemma await_connect_skips_spurious env s0 sockfd maxLen timeout spurious_exits exits :
  Forall (λ e, fileNotifier_count e ≤ 0 ∧ clock_now e ≤ timeout) spurious_exits →
  await_connect env s0 sockfd maxLen timeout (spurious_exits ++ exits) =
    await_connect env s0 sockfd maxLen timeout exits.
Proof.
  induction 1 as [|e rest [Hcount Hclock] _ IH]; [reflexivity|].
  cbn [app await_connect].
  destruct (Z.ltb_spec 0 (fileNotifier_count e)); [lia|].
  destruct (Z.ltb_spec timeout (clock_now e)); [lia|]. exact IH.
Qed.

(** X5.  The constructor clamps the caller's deadline to ten seconds after
    entry: every deadline at or beyond that gives the same construction as
    the deadline ten seconds after entry.  While connect is in progress the
    deadline is tested only on a return of the event loop without a file
    event: after any number of spurious returns, the first such return at a
    clock later than the clamped deadline ends construction with the error
    "Failed to connect socket to <address>: timeout expired" and no socket,
    whereas a return with a file event (getsockopt succeeding with SO_ERROR
    0) gives a connected session whatever the clock then reads, also past
    the deadline. *)
Theorem connect_deadline_clamped env addr maxLen :
  let ten_seconds := now_at_entry env + 10 * 1000 * 1000 * 1000 in
  (∀ timeout,
     ten_seconds ≤ timeout →
     construct env addr maxLen timeout = construct env addr maxLen ten_seconds) ∧
  ∀ timeout spurious_exits e rest,
    isValid addr = true →
    0 ≤ socket_r env →
    connect_r env ≠ 0 →
    connect_errno env = EINPROGRESS →
    loop_exits env = (spurious_exits ++ e :: rest)%list →
    Forall (λ x, fileNotifier_count x ≤ 0 ∧ clock_now x ≤ Z.min timeout ten_seconds)
           spurious_exits →
    (fileNotifier_count e ≤ 0 →
     Z.min timeout ten_seconds < clock_now e →
     construct env addr maxLen timeout =
       Constructed (set_errorMessage
                      ("Failed to connect socket to " ++ toString addr ++ ": timeout expired")
                      (initial_session addr))) ∧
    (0 < fileNotifier_count e →
     getsockopt_r e = 0 →
     so_error e = 0 →
     construct env addr maxLen timeout =
       Constructed (set_messageSocket (Some (mkSocket (socket_r env) maxLen))
                      (initial_session addr))).
Proof.
  intros ten_seconds. split.
  - intros timeout Hlate. unfold construct. fold ten_seconds.
    by rewrite (Z.min_r timeout ten_seconds), (Z.min_l ten_seconds ten_seconds) by lia.
  - intros timeout spurious_exits e rest Hvalid Hfd Hr Herrno Hexits Hspurious.
    unfold construct. fold ten_seconds. rewrite Hvalid, Herrno, Hexits. cbn [negb].
    destruct (Z.ltb_spec (socket_r env) 0); [lia|].
    destruct (Z.eqb_spec (connect_r env) 0); [lia|]. cbn [negb].
    rewrite await_connect_skips_spurious by exact Hspurious.
    cbn [await_connect]. split.
    + intros Hcount Hlate.
      destruct (Z.ltb_spec 0 (fileNotifier_count e)); [lia|].
      destruct (Z.ltb_spec (Z.min timeout ten_seconds) (clock_now e)); [reflexivity|lia].
    + intros Hcount Hopt Herr.
      destruct (Z.ltb_spec 0 (fileNotifier_count e)); [|lia].
      by rewrite Hopt, Herr.
Qed.

Lemma connect_deadline_clamped_witness :
  construct
    (mkConnectEnv 0 3 (-1) EINPROGRESS (λ _, "unused")
       [mkLoopExit 0 0 0 5; mkLoopExit 0 0 0 10000000001])
    example_address 1024 (2 ^ 62) =
    Constructed (set_errorMessage
                   "Failed to connect socket to 192.168.1.1:61023: timeout expired"
                   (initial_session example_address)) ∧
  construct
    (mkConnectEnv 0 3 (-1) EINPROGRESS (λ _, "unused")
       [mkLoopExit 0 0 0 5; mkLoopExit 1 0 0 110000000000])
    example_address 1024 (2 ^ 62) =
    Constructed (set_messageSocket (Some (mkSocket 3 1024)) (initial_session example_address)).
Proof.
  split.
  - apply (proj2 (connect_deadline_clamped
                    (mkConnectEnv 0 3 (-1) EINPROGRESS (λ _, "unused")
                       [mkLoopExit 0 0 0 5; mkLoopExit 0 0 0 10000000001])
                    example_address 1024)
             (2 ^ 62) [mkLoopExit 0 0 0 5] (mkLoopExit 0 0 0 10000000001) []);
      try reflexivity; try (simpl; lia).
    constructor; [simpl; lia|constructor].
  - apply (proj2 (connect_deadline_clamped
                    (mkConnectEnv 0 3 (-1) EINPROGRESS (λ _, "unused")
                       [mkLoopExit 0 0 0 5; mkLoopExit 1 0 0 110000000000])
                    example_address 1024)
             (2 ^ 62) [mkLoopExit 0 0 0 5] (mkLoopExit 1 0 0 110000000000) []);
      try reflexivity; try (simpl; lia).
    constructor; [simpl; lia|constructor].
Defined.

Lemma construct_termination_witness :
  construct
    (mkConnectEnv 0 3 (-1) EINPROGRESS (λ _, "unused") [mkLoopExit 0 0 0 5; mkLoopExit 0 0 0 7])
    example_address 1024 100 = NeverReturns.
Proof.
  apply (proj2 (proj1 (construct_termination
                         (mkConnectEnv 0 3 (-1) EINPROGRESS (λ _, "unused")
                            [mkLoopExit 0 0 0 5; mkLoopExit 0 0 0 7])
                         example_address 1024 100))).
  split; [reflexivity|]. split; [simpl; lia|]. split; [simpl; lia|].
  split; [reflexivity|].
  constructor; [simpl; lia|]. constructor; [simpl; lia|]. constructor.
Defined.

(** ** Cancelling *)

(** X6.  cancel never writes the handle, the timer, the error, the id
    counter or activePing, and never sends a frame.  For a token with no
    record it changes nothing.  For a record nobody waits on it removes the
    record, decrements numActiveRPCs and notifies nobody; a second cancel is
    then a no-op, and a reply that arrives later for the token is dropped.
    For a record with a waiter it marks the record CANCELED in place,
    decrements numActiveRPCs and notifies the waiter. *)
Theorem cancel_effect (cnt_bits : positive) (s : ClientSession) (rpc : OpaqueClientRPC.t) :
  let token := OpaqueClientRPC.responseToken rpc in
  let s' := (cancel cnt_bits s rpc).1.1 in
  (cancel cnt_bits s rpc).1.2 = rpc ∧
  timer s' = timer s ∧ errorMessage s' = errorMessage s ∧
  nextMessageId s' = nextMessageId s ∧ activePing s' = activePing s ∧
  (∀ id contents, ¬ In (SendMessage id contents) (cancel cnt_bits s rpc).2) ∧
  (responses s !! token = None → cancel cnt_bits s rpc = (s, rpc, [])) ∧
  (∀ r, responses s !! token = Some r → Response.hasWaiter r = false →
        responses s' = delete token (responses s) ∧
        numActiveRPCs s' = wrap_cnt cnt_bits (numActiveRPCs s - 1) ∧
        (cancel cnt_bits s rpc).2 = [] ∧
        cancel cnt_bits s' rpc = (s', rpc, []) ∧
        (token ≠ 0 → ∀ message, onReceiveMessage cnt_bits s' token message = (s', []))) ∧
  (∀ r, responses s !! token = Some r → Response.hasWaiter r = true →
        responses s' =
          <[token := Response.mk Response.CANCELED (Response.reply r) true]> (responses s) ∧
        numActiveRPCs s' = wrap_cnt cnt_bits (numActiveRPCs s - 1) ∧
        (cancel cnt_bits s rpc).2 = [NotifyAll token]).
Proof.
  intros token s'. subst s'. unfold cancel. fold token.
  destruct (responses s !! token) as [r|] eqn:Hlook.
  - destruct (Response.hasWaiter r) eqn:Hw; fields.
    + do 5 (split; [reflexivity|]).
      split; [intros id contents [|[]]; discriminate|].
      split; [discriminate|].
      split; [intros r' [= <-] Hw'; congruence|].
      intros r' [= <-] _. auto.
    + do 5 (split; [reflexivity|]).
      split; [intros id contents []|].
      split; [discriminate|].
      split; [|intros r' [= <-] Hw'; congruence].
      intros r' [= <-] _. do 3 (split; [reflexivity|]).
      split.
      * fold token. fields. by rewrite lookup_delete_eq.
      * intros Hne message. unfold onReceiveMessage. fields.
        destruct (Z.eqb_spec token PING_MESSAGE_ID) as [Hz|_]; [by destruct Hne|].
        by rewrite lookup_delete_eq.
  - fields. do 5 (split; [reflexivity|]).
    split; [intros id contents []|].
    split; [reflexivity|]. split; intros r [=].
Qed.

Lemma cancel_effect_witness :
  let rpc := (sendRequest 32 example_session "A").1.2 in
  let s := run 32 example_session [EvSendRequest "A"] in
  responses (cancel 32 s rpc).1.1 = delete 1 (responses s) ∧
  numActiveRPCs (cancel 32 s rpc).1.1 = 0.
Proof.
  pose proof (cancel_effect 32 (run 32 example_session [EvSendRequest "A"])
                (sendRequest 32 example_session "A").1.2) as H.
  cbv zeta in H. destruct H as (_ & _ & _ & _ & _ & _ & _ & Hremoved & _).
  destruct (Hremoved Response.new eq_refl eq_refl) as (Hresp & Hcnt & _).
  split; [exact Hresp|]. cbv zeta. rewrite Hcnt. reflexivity.
Defined.

(** ** A call from request to resolution *)

(** X7.  Request, reply, update is a round trip.  On a session whose next
    id is not 0 and not registered, and whose count of active calls can be
    incremented without wrapping: after sendRequest, the arrival of the reply
    for the returned token and update on the returned handle, the handle is
    OK and holds the reply, and the registry, the count of active calls and
    the error are what they were before the request; the timer is unscheduled
    if no other call is active and armed for TIMEOUT_MS otherwise.  This holds
    also on a failed session: a reply that is there wins over the error. *)
Theorem request_reply_round_trip (cnt_bits : positive) (s : ClientSession)
    (request message : Buffer) :
  nextMessageId s ≠ 0 →
  responses s !! nextMessageId s = None →
  0 ≤ numActiveRPCs s < 2 ^ Z.pos cnt_bits - 1 →
  let sent := (sendRequest cnt_bits s request).1.1 in
  let rpc := (sendRequest cnt_bits s request).1.2 in
  let replied := (onReceiveMessage cnt_bits sent (nextMessageId s) message).1 in
  (onReceiveMessage cnt_bits sent (nextMessageId s) message).2 =
    [NotifyAll (nextMessageId s)] ∧
  ∃ s',
    update replied rpc =
      Returned (s', OpaqueClientRPC.mk None (nextMessageId s) OpaqueClientRPC.OK
                      message EmptyString) ∧
    responses s' = responses s ∧
    numActiveRPCs s' = numActiveRPCs s ∧
    errorMessage s' = errorMessage s ∧
    timer s' = (if numActiveRPCs s =? 0 then None else Some (TIMEOUT_MS * 1000 * 1000)).
Proof.
  intros Hid Hfree Hcount sent rpc replied.
  assert (Hinc : wrap_cnt cnt_bits (numActiveRPCs s + 1) = numActiveRPCs s + 1)
    by (unfold wrap_cnt; apply Z.mod_small; lia).
  assert (Hdec : wrap_cnt cnt_bits (numActiveRPCs s + 1 - 1) = numActiveRPCs s).
  { unfold wrap_cnt. replace (numActiveRPCs s + 1 - 1) with (numActiveRPCs s) by lia.
    apply Z.mod_small. lia. }
  assert (Hping : (nextMessageId s =? PING_MESSAGE_ID) = false) by (by apply Z.eqb_neq).
  subst replied rpc sent. unfold sendRequest.
  cbn [fst snd set_nextMessageId set_responses set_numActiveRPCs responses numActiveRPCs
         nextMessageId messageSocket errorMessage activePing timer address].
  rewrite Hinc.
  destruct (numActiveRPCs s + 1 =? 1) eqn:Hone;
    unfold onReceiveMessage;
    cbn [fst snd set_nextMessageId set_responses set_numActiveRPCs set_timer set_activePing
           responses numActiveRPCs nextMessageId messageSocket errorMessage activePing timer
           address];
    rewrite Hping, lookup_insert_eq; cbn [Response.status Response.new Response.hasWaiter];
    rewrite Hdec;
    (split; [reflexivity|]);
    destruct (numActiveRPCs s =? 0) eqn:Hzero;
    unfold update;
    cbn [fst snd set_nextMessageId set_responses set_numActiveRPCs set_timer set_activePing
           responses numActiveRPCs nextMessageId messageSocket errorMessage activePing timer
           address OpaqueClientRPC.responseToken OpaqueClientRPC.errorMessage
           OpaqueClientRPC.status OpaqueClientRPC.default];
    rewrite lookup_insert_eq; cbn [Response.status Response.reply];
    (eexists; split; [reflexivity|]);
    cbn [set_responses responses numActiveRPCs errorMessage timer];
    rewrite !delete_insert_eq, delete_id by done; auto.
Qed.

Lemma request_reply_round_trip_witness :
  let s := example_session in
  let sent := (sendRequest 32 s "A").1.1 in
  let rpc := (sendRequest 32 s "A").1.2 in
  let replied := (onReceiveMessage 32 sent 1 "reply-A").1 in
  ∃ s', update replied rpc =
          Returned (s', OpaqueClientRPC.mk None 1 OpaqueClientRPC.OK "reply-A" EmptyString) ∧
        responses s' = ∅ ∧ timer s' = None.
Proof.
  destruct (request_reply_round_trip 32 example_session "A" "reply-A")
    as (_ & s' & Hu & Hresp & _ & _ & Htimer).
  - discriminate.
  - reflexivity.
  - simpl. lia.
  - exists s'. split; [exact Hu|]. split; [exact Hresp|exact Htimer].
Defined.

(** X8.  Request, cancel is a round trip for the registry and the count,
    but not for the timer: after sendRequest and cancel on the returned
    handle (nobody waiting) the registry and the count of active calls are
    what they were, while the timer stays armed if the request armed it.  If
    no call was active before, the expiry that follows is spurious: the
    handler changes nothing and sends no ping. *)
Theorem request_cancel_round_trip (cnt_bits : positive) (s : ClientSession)
    (request : Buffer) :
  responses s !! nextMessageId s = None →
  0 ≤ numActiveRPCs s < 2 ^ Z.pos cnt_bits - 1 →
  let sent := (sendRequest cnt_bits s request).1.1 in
  let rpc := (sendRequest cnt_bits s request).1.2 in
  let canceled := (cancel cnt_bits sent rpc).1.1 in
  responses canceled = responses s ∧
  numActiveRPCs canceled = numActiveRPCs s ∧
  timer canceled = timer sent ∧
  (numActiveRPCs s = 0 →
   timer canceled = Some (TIMEOUT_MS * 1000 * 1000) ∧
   handleTimerEvent canceled = (canceled, [])).
Proof.
  intros Hfree Hcount sent rpc canceled.
  assert (Hinc : wrap_cnt cnt_bits (numActiveRPCs s + 1) = numActiveRPCs s + 1)
    by (unfold wrap_cnt; apply Z.mod_small; lia).
  assert (Hdec : wrap_cnt cnt_bits (numActiveRPCs s + 1 - 1) = numActiveRPCs s).
  { unfold wrap_cnt. replace (numActiveRPCs s + 1 - 1) with (numActiveRPCs s) by lia.
    apply Z.mod_small. lia. }
  subst canceled rpc sent. unfold sendRequest.
  cbn [fst snd set_nextMessageId set_responses set_numActiveRPCs responses numActiveRPCs
         nextMessageId messageSocket errorMessage activePing timer address].
  rewrite Hinc.
  destruct (numActiveRPCs s + 1 =? 1) eqn:Hone;
    unfold cancel;
    cbn [fst snd set_nextMessageId set_responses set_numActiveRPCs set_timer set_activePing
           responses numActiveRPCs nextMessageId messageSocket errorMessage activePing timer
           address OpaqueClientRPC.responseToken];
    rewrite lookup_insert_eq; cbn [Response.hasWaiter Response.new];
    cbn [fst snd set_nextMessageId set_responses set_numActiveRPCs set_timer set_activePing
           responses numActiveRPCs nextMessageId messageSocket errorMessage activePing timer
           address];
    rewrite Hdec, delete_insert_eq, delete_id by done;
    (do 3 (split; [reflexivity|])); intros Hzero.
  - split; [reflexivity|]. unfold handleTimerEvent. fields.
    rewrite Hzero. by destruct (messageSocket s).
  - apply Z.eqb_neq in Hone. lia.
Qed.

Lemma request_cancel_round_trip_witness :
  let sent := (sendRequest 32 example_session "A").1.1 in
  let rpc := (sendRequest 32 example_session "A").1.2 in
  let canceled := (cancel 32 sent rpc).1.1 in
  responses canceled = ∅ ∧ timer canceled = Some 100000000 ∧
  handleTimerEvent canceled = (canceled, []).
Proof.
  destruct (request_cancel_round_trip 32 example_session "A")
    as (Hresp & _ & _ & Hidle).
  - reflexivity.
  - simpl. lia.
  - destruct (Hidle eq_refl) as [Ht Hh].
    split; [exact Hresp|]. split; [exact Ht|exact Hh].
Defined.

(** ** A blocked waiter *)

(** X9.  A waiter blocked on a WAITING call is released by the reply: when
    the reply frame for its token arrives while it is blocked, wait returns
    with the handle untouched and the record HAS_REPLY with that payload and
    no waiter, and update then resolves the handle as OK with the payload and
    removes the record. *)
Theorem wait_released_by_reply (cnt_bits : positive) (s : ClientSession)
    (rpc : OpaqueClientRPC.t) (r : Response.t) (timeout now now' : Z) (message : Buffer) :
  let token := OpaqueClientRPC.responseToken rpc in
  token ≠ 0 →
  responses s !! token = Some r →
  Response.status r = Response.WAITING →
  empty (errorMessage s) = true →
  ¬ timeout < now →
  ∃ s',
    wait s rpc timeout now [(λ s1, (onReceiveMessage cnt_bits s1 token message).1, now')] =
      WaitDone s' rpc ∧
    responses s' = <[token := Response.mk Response.HAS_REPLY message false]> (responses s) ∧
    update s' rpc =
      Returned (set_responses (delete token (responses s)) s',
                OpaqueClientRPC.mk None token OpaqueClientRPC.OK message
                  (OpaqueClientRPC.errorMessage rpc)).
Proof.
  intros token Hne Hlook Hst He Hnow.
  assert (Hping : (token =? PING_MESSAGE_ID) = false) by (by apply Z.eqb_neq).
  apply Z.ltb_nlt in Hnow.
  cbn [wait]. unfold wait_pass at 1. fold token. rewrite Hlook, Hst, He, Hnow. cbn [negb].
  unfold onReceiveMessage. fields. rewrite Hping, lookup_insert_eq. fields.
  destruct (wrap_cnt cnt_bits (numActiveRPCs s - 1) =? 0);
    unfold wait_wake; fold token; fields; rewrite lookup_insert_eq; fields;
    unfold wait_pass; fold token; fields; rewrite lookup_insert_eq; fields;
    (eexists; split; [reflexivity|]); fields;
    rewrite !insert_insert_eq; (split; [reflexivity|]);
    unfold update; fold token; fields; rewrite lookup_insert_eq; fields;
    by rewrite delete_insert_eq.
Qed.

Lemma wait_released_by_reply_witness :
  let rpc := (sendRequest 32 example_session "A").1.2 in
  let s := run 32 example_session [EvSendRequest "A"] in
  ∃ s', wait s rpc 1000 0 [(λ s1, (onReceiveMessage 32 s1 1 "reply-A").1, 5)] =
          WaitDone s' rpc ∧
        responses s' !! 1 = Some (Response.mk Response.HAS_REPLY "reply-A" false).
Proof.
  destruct (wait_released_by_reply 32 (run 32 example_session [EvSendRequest "A"])
              (sendRequest 32 example_session "A").1.2 Response.new 1000 0 5 "reply-A")
    as (s' & Hw & Hresp & _).
  - discriminate.
  - reflexivity.
  - reflexivity.
  - reflexivity.
  - simpl. lia.
  - exists s'. split; [exact Hw|]. rewrite Hresp. apply lookup_insert_eq.
Defined.

(** X10.  A waiter whose deadline passes while it is blocked, nothing else
    having happened, returns with the call still registered and WAITING: the
    record is as before except that it has no waiter, and update on the handle
    afterwards changes neither the session nor the handle. *)
Theorem wait_times_out (s : ClientSession) (rpc : OpaqueClientRPC.t) (r : Response.t)
    (timeout now now' : Z) :
  let token := OpaqueClientRPC.responseToken rpc in
  responses s !! token = Some r →
  Response.status r = Response.WAITING →
  empty (errorMessage s) = true →
  ¬ timeout < now →
  timeout < now' →
  ∃ s',
    wait s rpc timeout now [(λ s1, s1, now')] = WaitDone s' rpc ∧
    s' = set_responses
           (<[token := Response.mk Response.WAITING (Response.reply r) false]> (responses s)) s ∧
    update s' rpc = Returned (s', rpc).
Proof.
  intros token Hlook Hst He Hnow Hlate.
  apply Z.ltb_nlt in Hnow. apply Z.ltb_lt in Hlate.
  cbn [wait]. unfold wait_pass at 1. fold token. rewrite Hlook, Hst, He, Hnow. cbn [negb].
  unfold wait_wake. fold token. fields. rewrite lookup_insert_eq. fields.
  unfold wait_pass. fold token. fields. rewrite lookup_insert_eq. fields.
  rewrite He, Hlate. cbn [negb].
  eexists. split; [reflexivity|]. rewrite insert_insert_eq.
  split; [destruct s; reflexivity|].
  unfold update. fold token. fields. rewrite lookup_insert_eq. fields. by rewrite He.
Qed.

Lemma wait_times_out_witness :
  let rpc := (sendRequest 32 example_session "A").1.2 in
  let s := run 32 example_session [EvSendRequest "A"] in
  ∃ s', wait s rpc 1000 0 [(λ s1, s1, 1001)] = WaitDone s' rpc ∧
        update s' rpc = Returned (s', rpc).
Proof.
  destruct (wait_times_out (run 32 example_session [EvSendRequest "A"])
              (sendRequest 32 example_session "A").1.2 Response.new 1000 0 1001)
    as (s' & Hw & _ & Hu).
  - reflexivity.
  - reflexivity.
  - reflexivity.
  - simpl. lia.
  - simpl. lia.
  - exists s'. split; [exact Hw|exact Hu].
Defined.

(** X11.  A waiter blocked on a WAITING call is released by cancel: when
    the call is cancelled while it is blocked, the record is first marked
    CANCELED and the waiter, once awake, removes it and returns.  The
    registry then has no record for the token, numActiveRPCs has been
    decremented once, and a later reply for the token is dropped. *)
Theorem wait_released_by_cancel (cnt_bits : positive) (s : ClientSession)
    (rpc : OpaqueClientRPC.t) (r : Response.t) (timeout now now' : Z) :
  let token := OpaqueClientRPC.responseToken rpc in
  responses s !! token = Some r →
  Response.status r = Response.WAITING →
  empty (errorMessage s) = true →
  ¬ timeout < now →
  ∃ s',
    wait s rpc timeout now [(λ s1, (cancel cnt_bits s1 rpc).1.1, now')] = WaitDone s' rpc ∧
    s' = set_numActiveRPCs (wrap_cnt cnt_bits (numActiveRPCs s - 1))
           (set_responses (delete token (responses s)) s) ∧
    (token ≠ 0 → ∀ message, onReceiveMessage cnt_bits s' token message = (s', [])).
Proof.
  intros token Hlook Hst He Hnow.
  apply Z.ltb_nlt in Hnow.
  cbn [wait]. unfold wait_pass at 1. fold token. rewrite Hlook, Hst, He, Hnow. cbn [negb].
  unfold cancel. fold token. fields. rewrite lookup_insert_eq. fields.
  unfold wait_wake. fold token. fields. rewrite lookup_insert_eq. fields.
  unfold wait_pass. fold token. fields. rewrite lookup_insert_eq. fields.
  eexists. split; [reflexivity|].
  rewrite !delete_insert_eq. split; [destruct s; reflexivity|].
  intros Hne message. unfold onReceiveMessage. fields.
  destruct (Z.eqb_spec token PING_MESSAGE_ID) as [Hz|_]; [by destruct Hne|].
  by rewrite lookup_delete_eq.
Qed.

Lemma wait_released_by_cancel_witness :
  let rpc := (sendRequest 32 example_session "A").1.2 in
  let s := run 32 example_session [EvSendRequest "A"] in
  ∃ s', wait s rpc 1000 0 [(λ s1, (cancel 32 s1 rpc).1.1, 5)] = WaitDone s' rpc ∧
        responses s' = delete 1 (responses s) ∧ numActiveRPCs s' = 0.
Proof.
  destruct (wait_released_by_cancel 32 (run 32 example_session [EvSendRequest "A"])
              (sendRequest 32 example_session "A").1.2 Response.new 1000 0 5)
    as (s' & Hw & Hs' & _).
  - reflexivity.
  - reflexivity.
  - reflexivity.
  - simpl. lia.
  - exists s'. split; [exact Hw|]. rewrite Hs'. split; reflexivity.
Defined.

(** ** The two phases of the timer *)

(** X12.  In a reachable session with calls active, no error and no ping
    outstanding: two timer expiries in a row, with nothing received in
    between, fail the session with "Server <address> timed out"; a ping reply
    between them keeps the session alive (the second expiry sends a new ping
    instead); but the reply to a call between them does not, as long as calls
    remain: it rearms the timer without clearing activePing, so the second
    expiry still fails the session. *)
Theorem unanswered_ping_expires (cnt_bits : positive) (s : ClientSession) :
  reachable cnt_bits s →
  0 < numActiveRPCs s →
  empty (errorMessage s) = true →
  activePing s = false →
  errorMessage (run cnt_bits s [EvTimer; EvTimer]) =
    "Server " ++ toString (address s) ++ " timed out" ∧
  (∀ message,
     empty (errorMessage (run cnt_bits s [EvTimer; EvReceive 0 message; EvTimer])) = true ∧
     activePing (run cnt_bits s [EvTimer; EvReceive 0 message; EvTimer]) = true ∧
     (handleTimerEvent (run cnt_bits s [EvTimer; EvReceive 0 message])).2 =
       [SendMessage 0 EmptyString]) ∧
  (∀ k r message,
     k ≠ 0 →
     responses s !! k = Some r →
     Response.status r ≠ Response.HAS_REPLY →
     1 < numActiveRPCs s < 2 ^ Z.pos cnt_bits →
     errorMessage (run cnt_bits s [EvTimer; EvReceive k message; EvTimer]) =
       "Server " ++ toString (address s) ++ " timed out").
Proof.
  intros Hr Hn He Hp.
  destruct (messageSocket s) as [sock|] eqn:Hsock.
  2:{ pose proof (reachable_socket_or_error cnt_bits s Hr Hsock). congruence. }
  assert (Hnz : (numActiveRPCs s =? 0) = false) by (apply Z.eqb_neq; lia).
  assert (Hpos : (0 <? numActiveRPCs s) = true) by (by apply Z.ltb_lt).
  assert (Hfirst : (handleTimerEvent s).1 = set_timer (Some TIMEOUT_NS) (set_activePing true s)).
  { unfold handleTimerEvent. by rewrite Hsock, Hnz, He, Hp. }
  cbn [run fold_left step]. rewrite Hfirst. split; [|split].
  - unfold handleTimerEvent. fields. by rewrite Hsock, Hnz, He.
  - intros message. unfold onReceiveMessage. cbn [Z.eqb PING_MESSAGE_ID]. fields.
    rewrite Hpos. cbn [andb fst]. unfold handleTimerEvent. fields.
    by rewrite Hsock, Hnz, He.
  - intros k r message Hk Hlook Hst Hcount.
    unfold onReceiveMessage. fields.
    destruct (Z.eqb_spec k PING_MESSAGE_ID) as [Hz|_]; [by destruct Hk|].
    rewrite Hlook.
    assert (Hdec : wrap_cnt cnt_bits (numActiveRPCs s - 1) = numActiveRPCs s - 1)
      by (unfold wrap_cnt; apply Z.mod_small; lia).
    rewrite Hdec.
    destruct (Z.eqb_spec (numActiveRPCs s - 1) 0) as [Hz|Hnz']; [lia|].
    destruct (Response.status r) eqn:Hs; [|congruence|];
      fields; unfold handleTimerEvent; fields; rewrite Hsock, He;
      (destruct (Z.eqb_spec (numActiveRPCs s - 1) 0) as [Hz|_]; [lia|]);
      reflexivity.
Qed.

Lemma unanswered_ping_expires_witness :
  let s := run 32 example_session [EvSendRequest "A"; EvSendRequest "B"] in
  errorMessage (run 32 s [EvTimer; EvTimer]) = "Server 192.168.1.1:61023 timed out" ∧
  errorMessage (run 32 s [EvTimer; EvReceive 1 "reply-A"; EvTimer]) =
    "Server 192.168.1.1:61023 timed out".
Proof.
  destruct (unanswered_ping_expires 32
              (run 32 example_session [EvSendRequest "A"; EvSendRequest "B"]))
    as (Htwo & _ & Hcall).
  - apply reachable_run, (reachable_constructed 32 _ _ _ _ _ example_session_constructed).
  - reflexivity.
  - reflexivity.
  - reflexivity.
  - split; [exact Htwo|].
    apply (Hcall 1 Response.new "reply-A"); [discriminate|reflexivity|discriminate|].
    split; reflexivity.
Defined.

(** ** The registry and the error along a run *)

Section RunInvariants.

Variable cnt_bits : positive.

Lemma run_registered_positive evs : ∀ s,
  0 < nextMessageId s →
  nextMessageId s + Z.of_nat (sends evs) < 2 ^ 64 →
  (∀ k, is_Some (responses s !! k) → 0 < k) →
  ∀ k, is_Some (responses (run cnt_bits s evs) !! k) → 0 < k.
Proof.
  induction evs as [|ev evs IH]; intros s Hlo Hhi Hkeys; [exact Hkeys|].
  cbn [run fold_left].
  change (fold_left (step cnt_bits) ?l ?s) with (run cnt_bits s l).
  rewrite sends_cons in Hhi.
  pose proof (step_nextMessageId cnt_bits s ev) as Hnext.
  pose proof (step_registered cnt_bits s ev) as Hreg.
  destruct (is_send ev).
  - rewrite wrap_id_small in Hnext by lia.
    apply IH; [lia|lia|].
    intros k Hsome. destruct (Hreg k Hsome) as [Hold|[_ ->]]; [auto|lia].
  - apply IH; [lia|lia|].
    intros k Hsome. destruct (Hreg k Hsome) as [Hold|[? _]]; [auto|done].
Qed.

Lemma step_address s ev : address (step cnt_bits s ev) = address s.
Proof.
  destruct ev; cbn [step].
  - unfold sendRequest; simpl. cases; congruence.
  - unfold onReceiveMessage. cases; congruence.
  - unfold onDisconnect. cases; congruence.
  - unfold handleTimerEvent. cases; congruence.
  - unfold cancel. cases; simplify_eq; simpl; congruence.
  - unfold update. cases; simplify_eq; simpl; congruence.
  - unfold wait_pass. cases; congruence.
  - unfold wait_wake, wait_pass. cases; simplify_eq; simpl; congruence.
Qed.

(** A step leaves the error alone or sets it, on a session that had none,
    to one of the two run-time messages; the timer's message needs a
    socket. *)
Lemma step_error_new s ev :
  errorMessage (step cnt_bits s ev) = errorMessage s ∨
  (empty (errorMessage s) = true ∧
   (errorMessage (step cnt_bits s ev) = "Disconnected from server " ++ toString (address s) ∨
    (errorMessage (step cnt_bits s ev) = "Server " ++ toString (address s) ++ " timed out" ∧
     is_Some (messageSocket s)))).
Proof.
  destruct (empty (errorMessage s)) eqn:He; [|left; by apply step_errorMessage].
  destruct ev; cbn [step];
    try (left;
         first [apply sendRequest_errorMessage | apply onReceiveMessage_errorMessage
               | apply cancel_errorMessage | apply wait_pass_errorMessage]).
  - right. split; [reflexivity|]. left. unfold onDisconnect. by rewrite He.
  - unfold handleTimerEvent. destruct (messageSocket s) eqn:Hs; [|by left].
    rewrite He. destruct (numActiveRPCs s =? 0); [by left|]. cbn [orb negb].
    destruct (activePing s); cbn [negb fst]; [|by left].
    right. split; [reflexivity|]. right. split; [reflexivity|eauto].
  - left. destruct (update s rpc) as [[s' rpc']|] eqn:Hu; [|reflexivity].
    eapply update_errorMessage, Hu.
  - left. destruct (wait_wake s rpc) as [[s' rpc']|] eqn:Hw; [|reflexivity].
    rewrite wait_pass_errorMessage. eapply wait_wake_errorMessage, Hw.
Qed.

End RunInvariants.

(** X13.  Along a run of a constructed session with fewer than 2^64 - 1
    requests, every registered record sits under an id that some sendRequest
    of the run assigned: an id between 1 and the number of requests sent.  In
    particular no record is ever registered under the ping id 0. *)
Theorem registered_ids_were_assigned (cnt_bits : positive) env addr maxLen timeout
    (s0 : ClientSession) (evs : list Event) (k : Z) :
  construct env addr maxLen timeout = Constructed s0 →
  Z.of_nat (sends evs) < 2 ^ 64 - 1 →
  is_Some (responses (run cnt_bits s0 evs) !! k) →
  1 ≤ k ≤ Z.of_nat (sends evs) ∧ In k (assigned cnt_bits s0 evs).
Proof.
  intros Hc Hbound Hk.
  pose proof (construct_nextMessageId _ _ _ _ _ Hc) as Hone.
  pose proof (construct_responses _ _ _ _ _ Hc) as Hempty.
  assert (Hnone : ∀ j, is_Some (responses s0 !! j) → False).
  { intros j. rewrite Hempty, lookup_empty. by intros []. }
  destruct (run_registered cnt_bits evs s0) as [Hn Hupper]; [lia|lia| |].
  { intros j Hj. by destruct (Hnone j Hj). }
  assert (Hlower : 0 < k).
  { apply (run_registered_positive cnt_bits evs s0); [lia|lia| |exact Hk].
    intros j Hj. by destruct (Hnone j Hj). }
  specialize (Hupper k Hk).
  split; [lia|].
  rewrite assigned_consecutive by lia. apply in_map_iff.
  exists (Z.to_nat (k - 1)). split; [lia|]. apply in_seq. lia.
Qed.

Lemma registered_ids_were_assigned_witness :
  1 ≤ 2 ≤ 2 ∧
  In 2 (assigned 32 example_session [EvSendRequest "A"; EvSendRequest "B"; EvReceive 1 "x"]).
Proof.
  apply (registered_ids_were_assigned 32 _ _ _ _ example_session
           [EvSendRequest "A"; EvSendRequest "B"; EvReceive 1 "x"] 2
           example_session_constructed).
  - reflexivity.
  - vm_compute. eauto.
Defined.

(** X14.  The error of a reachable session is empty or one of the messages
    the code builds, and tells how the session failed: the three
    construction errors occur only without a socket, the two run-time errors
    ("Disconnected from server <address>", "Server <address> timed out") only
    with one. *)
Theorem reachable_error_forms (cnt_bits : positive) (s : ClientSession) :
  reachable cnt_bits s →
  (errorMessage s = EmptyString ∧ is_Some (messageSocket s)) ∨
  (messageSocket s = None ∧
   (errorMessage s = "Failed to resolve " ++ toString (address s) ∨
    errorMessage s = "Failed to create socket" ∨
    ∃ why, errorMessage s =
             "Failed to connect socket to " ++ toString (address s) ++ ": " ++ why)) ∨
  (is_Some (messageSocket s) ∧
   (errorMessage s = "Disconnected from server " ++ toString (address s) ∨
    errorMessage s = "Server " ++ toString (address s) ++ " timed out")).
Proof.
  induction 1 as [env addr maxLen timeout s Hc|s ev Hr IH].
  - destruct (construct_cases _ _ _ _ _ Hc) as [(-> & _ & _)|(msg & -> & _ & Hforms)].
    + left. split; [reflexivity|]. cbn. eauto.
    + right. left. split; [reflexivity|]. cbn.
      destruct Hforms as [[-> _]|[[-> _]|[why ->]]]; eauto.
  - rewrite step_messageSocket, step_address.
    destruct (step_error_new cnt_bits s ev) as [->|(He & Hnew)]; [exact IH|].
    destruct IH as [[_ Hsock]|[(Hnone & Hforms)|(Hsock & _)]].
    + right. right. split; [exact Hsock|]. destruct Hnew as [->|[-> _]]; auto.
    + pose proof (reachable_socket_or_error cnt_bits s Hr Hnone). congruence.
    + right. right. split; [exact Hsock|]. destruct Hnew as [->|[-> _]]; auto.
Qed.

Lemma reachable_error_forms_witness :
  is_Some (messageSocket (run 32 example_session [EvSendRequest "A"; EvDisconnect])) ∧
  errorMessage (run 32 example_session [EvSendRequest "A"; EvDisconnect]) =
    "Disconnected from server 192.168.1.1:61023".
Proof.
  destruct (reachable_error_forms 32
              (run 32 example_session [EvSendRequest "A"; EvDisconnect]))
    as [[Hnone _]|[[Hnone _]|[Hsock _]]].
  - apply reachable_run, (reachable_constructed 32 _ _ _ _ _ example_session_constructed).
  - discriminate Hnone.
  - discriminate Hnone.
  - split; [exact Hsock|reflexivity].
Defined.

(** ** Requests while a ping is outstanding *)

Lemma requests_keep_ping (cnt_bits : positive) (requests : list Buffer) : ∀ s,
  0 < numActiveRPCs s →
  numActiveRPCs s + Z.of_nat (length requests) < 2 ^ Z.pos cnt_bits →
  let s' := run cnt_bits s (EvSendRequest <$> requests) in
  activePing s' = activePing s ∧ errorMessage s' = errorMessage s ∧
  messageSocket s' = messageSocket s ∧ address s' = address s ∧
  timer s' = timer s ∧
  numActiveRPCs s' = numActiveRPCs s + Z.of_nat (length requests).
Proof.
  induction requests as [|request rest IH]; intros s Hpos Hbound.
  - cbn. repeat split; lia.
  - cbn [length] in Hbound. cbn [fmap list_fmap run fold_left step].
    change (fold_left (step cnt_bits) ?l ?x) with (run cnt_bits x l).
    assert (Hcount : wrap_cnt cnt_bits (numActiveRPCs s + 1) = numActiveRPCs s + 1)
      by (unfold wrap_cnt; apply Z.mod_small; lia).
    assert (Hsent : (sendRequest cnt_bits s request).1.1 =
                    set_numActiveRPCs (numActiveRPCs s + 1)
                      (set_responses (<[nextMessageId s := Response.new]> (responses s))
                         (set_nextMessageId (wrap_id (nextMessageId s + 1)) s))).
    { unfold sendRequest. fields. rewrite Hcount.
      destruct (Z.eqb_spec (numActiveRPCs s + 1) 1) as [Hone|_]; [lia|reflexivity]. }
    rewrite Hsent.
    destruct (IH (set_numActiveRPCs (numActiveRPCs s + 1)
                    (set_responses (<[nextMessageId s := Response.new]> (responses s))
                       (set_nextMessageId (wrap_id (nextMessageId s + 1)) s))))
      as (Hp & He & Hs & Ha & Ht & Hn); fields; [lia|lia|].
    rewrite Hp, He, Hs, Ha, Ht, Hn. fields. cbn [length]. repeat split. lia.
Qed.

(** X22.  Requests sent while calls are active leave the timer, activePing,
    the error and the socket exactly as they were and only add to the count
    of active calls: sendRequest touches the timer and activePing for the
    first active call alone.  So requests do not hide a dead server: on a
    session with a socket, no error and no ping outstanding, whatever
    requests are sent after a timer expiry, the timer and activePing stay as
    that expiry left them (armed for TIMEOUT_MS, ping outstanding), and the
    next expiry fails the session with "Server <address> timed out". *)
Theorem requests_do_not_postpone_timeout (cnt_bits : positive) (s : ClientSession)
    (requests : list Buffer) :
  0 < numActiveRPCs s →
  numActiveRPCs s + Z.of_nat (length requests) < 2 ^ Z.pos cnt_bits →
  (timer (run cnt_bits s (EvSendRequest <$> requests)) = timer s ∧
   activePing (run cnt_bits s (EvSendRequest <$> requests)) = activePing s ∧
   errorMessage (run cnt_bits s (EvSendRequest <$> requests)) = errorMessage s ∧
   messageSocket (run cnt_bits s (EvSendRequest <$> requests)) = messageSocket s ∧
   numActiveRPCs (run cnt_bits s (EvSendRequest <$> requests)) =
     numActiveRPCs s + Z.of_nat (length requests)) ∧
  (is_Some (messageSocket s) →
   empty (errorMessage s) = true →
   activePing s = false →
   timer (run cnt_bits s (EvTimer :: (EvSendRequest <$> requests))) =
     Some (TIMEOUT_MS * 1000 * 1000) ∧
   activePing (run cnt_bits s (EvTimer :: (EvSendRequest <$> requests))) = true ∧
   empty (errorMessage (run cnt_bits s (EvTimer :: (EvSendRequest <$> requests)))) = true ∧
   errorMessage
     (run cnt_bits s ([EvTimer] ++ (EvSendRequest <$> requests) ++ [EvTimer])%list) =
     "Server " ++ toString (address s) ++ " timed out").
Proof.
  intros Hpos Hbound. split.
  { destruct (requests_keep_ping cnt_bits requests s Hpos Hbound)
      as (Hp & He & Hs & _ & Ht & Hn). done. }
  intros [sock Hsock] He Hp.
  assert (Hnz : (numActiveRPCs s =? 0) = false) by (apply Z.eqb_neq; lia).
  assert (Hfirst : (handleTimerEvent s).1 = set_timer (Some TIMEOUT_NS) (set_activePing true s)).
  { unfold handleTimerEvent. by rewrite Hsock, Hnz, He, Hp. }
  destruct (requests_keep_ping cnt_bits requests
              (set_timer (Some TIMEOUT_NS) (set_activePing true s)))
    as (Hp' & He' & Hs' & Ha' & Ht' & Hn'); fields; [lia|lia|].
  revert Hp' He' Hs' Ha' Ht' Hn'. fields. intros Hp' He' Hs' Ha' Ht' Hn'.
  assert (Hmid : run cnt_bits s (EvTimer :: (EvSendRequest <$> requests)) =
                 run cnt_bits (set_timer (Some TIMEOUT_NS) (set_activePing true s))
                   (EvSendRequest <$> requests)).
  { unfold run. cbn [fold_left step]. by rewrite Hfirst. }
  rewrite Hmid, Ht', Hp', He'. do 3 (split; [done|]).
  unfold run. rewrite !fold_left_app. cbn [app fold_left step]. rewrite Hfirst.
  change (fold_left (step cnt_bits) ?l ?x) with (run cnt_bits x l).
  unfold handleTimerEvent. rewrite Hs', Hsock, He', He, Hp', Hn', Ha'.
  destruct (Z.eqb_spec (numActiveRPCs s + Z.of_nat (length requests)) 0) as [Hz|_]; [lia|].
  reflexivity.
Qed.

Lemma requests_do_not_postpone_timeout_witness :
  let s := run 32 example_session [EvSendRequest "A"] in
  timer (run 32 s [EvTimer; EvSendRequest "B"; EvSendRequest "C"]) =
    Some (TIMEOUT_MS * 1000 * 1000) ∧
  activePing (run 32 s [EvTimer; EvSendRequest "B"; EvSendRequest "C"]) = true ∧
  errorMessage (run 32 s [EvTimer; EvSendRequest "B"; EvSendRequest "C"; EvTimer]) =
    "Server 192.168.1.1:61023 timed out".
Proof.
  destruct (requests_do_not_postpone_timeout 32 (run 32 example_session [EvSendRequest "A"])
              ["B"; "C"]) as [_ Hafter].
  - reflexivity.
  - reflexivity.
  - destruct Hafter as (Ht & Hp & _ & He).
    + vm_compute. eauto.
    + reflexivity.
    + reflexivity.
    + split; [exact Ht|]. split; [exact Hp|exact He].
Defined.

(** * Properties of the filesystem log *)

(** ** Reading from an entry id on *)

Lemma readFrom_loop_spec start : ∀ reversed ret,
  ∃ taken dropped,
    reversed = (taken ++ dropped)%list ∧
    FilesystemLog.readFrom_loop reversed start ret = (rev taken ++ ret)%list ∧
    Forall (λ e, start ≤ entryId e) taken ∧
    ∀ e, head dropped = Some e → entryId e < start.
Proof.
  induction reversed as [|entry rest IH]; intros ret.
  - exists [], []. repeat split; [constructor|discriminate].
  - cbn [FilesystemLog.readFrom_loop].
    destruct (Z.ltb_spec (entryId entry) start) as [Hlt|Hge].
    + exists [], (entry :: rest). split; [reflexivity|]. split; [reflexivity|].
      split; [constructor|]. intros e [= <-]. exact Hlt.
    + destruct (IH (entry :: ret)) as (taken & dropped & -> & -> & Hall & Hhead).
      exists (entry :: taken), dropped. split; [reflexivity|]. split.
      * cbn [rev]. by rewrite <- app_assoc.
      * split; [by constructor|exact Hhead].
Qed.

Lemma last_rev_head {A} (l : list A) : last (rev l) = head l.
Proof. destruct l as [|x l]; [reflexivity|]. cbn [rev head]. apply last_snoc. Qed.

Lemma readFrom_suffix (log : FilesystemLog.t) (start : Z) :
  ∃ skipped,
    FilesystemLog.entries log = (skipped ++ FilesystemLog.readFrom log start)%list ∧
    Forall (λ e, start ≤ entryId e) (FilesystemLog.readFrom log start) ∧
    ∀ e, last skipped = Some e → entryId e < start.
Proof.
  unfold FilesystemLog.readFrom.
  destruct (readFrom_loop_spec start (rev (FilesystemLog.entries log)) [])
    as (taken & dropped & Hrev & -> & Hall & Hhead).
  exists (rev dropped). rewrite app_nil_r. split; [|split].
  - rewrite <- rev_app_distr, <- Hrev. symmetry. apply rev_involutive.
  - apply Forall_forall. intros e He. apply list_elem_of_In, in_rev in He.
    rewrite Forall_forall in Hall. apply Hall. by apply list_elem_of_In.
  - intros e. rewrite last_rev_head. apply Hhead.
Qed.

(** X15.  readFrom returns the longest tail of the log in which every entry
    has an id of at least [start]: the entries are the skipped part followed
    by the result, every returned entry has an id of at least [start], and the
    last skipped entry, if there is one, has a smaller id.  (It stops at the
    first smaller id from the end even if older entries would qualify.) *)
Theorem readFrom_longest_tail (log : FilesystemLog.t) (start : Z) :
  ∃ skipped,
    FilesystemLog.entries log = (skipped ++ FilesystemLog.readFrom log start)%list ∧
    Forall (λ e, start ≤ entryId e) (FilesystemLog.readFrom log start) ∧
    ∀ e, last skipped = Some e → entryId e < start.
Proof. apply readFrom_suffix. Qed.

Lemma filter_all_pass (start : Z) (l : list LogEntry) :
  Forall (λ e, start ≤ entryId e) l → filter (λ e, start ≤ entryId e) l = l.
Proof.
  induction 1 as [|e l He _ IH]; [reflexivity|].
  rewrite filter_cons. destruct (decide (start ≤ entryId e)); [by rewrite IH|lia].
Qed.

Lemma filter_none_pass (start : Z) (l : list LogEntry) :
  Forall (λ e, entryId e < start) l → filter (λ e, start ≤ entryId e) l = [].
Proof.
  induction 1 as [|e l He _ IH]; [reflexivity|].
  rewrite filter_cons. destruct (decide (start ≤ entryId e)); [lia|exact IH].
Qed.

Lemma readFrom_sorted_filter (log : FilesystemLog.t) (start : Z) :
  StronglySorted (λ a b, entryId a ≤ entryId b) (FilesystemLog.entries log) →
  FilesystemLog.readFrom log start =
    filter (λ e, start ≤ entryId e) (FilesystemLog.entries log).
Proof.
  intros Hsorted.
  destruct (readFrom_suffix log start) as (skipped & Hsplit & Hall & Hlast).
  rewrite Hsplit at 1. rewrite filter_app, (filter_all_pass _ _ Hall).
  rewrite filter_none_pass; [reflexivity|].
  rewrite Hsplit in Hsorted. apply StronglySorted_app_1_l in Hsorted.
  destruct skipped as [|first others] using rev_ind; [constructor|].
  clear IHothers. specialize (Hlast first (last_snoc _ _)).
  apply Forall_app. split; [|by repeat constructor].
  apply Forall_forall. intros e He.
  pose proof (StronglySorted_app_1_elem_of _ _ _ e first Hsorted He
                ltac:(by apply list_elem_of_singleton)).
  simpl in *. lia.
Qed.

(** X16.  On a log whose entries are in order of their ids, readFrom
    returns exactly the entries with an id of at least [start], in order. *)
Theorem readFrom_sorted (log : FilesystemLog.t) (start : Z) :
  StronglySorted (λ a b, entryId a ≤ entryId b) (FilesystemLog.entries log) →
  FilesystemLog.readFrom log start =
    filter (λ e, start ≤ entryId e) (FilesystemLog.entries log).
Proof. apply readFrom_sorted_filter. Qed.

(** ** Appending *)

Section Appending.

Variable NO_ENTRY_ID : Z.

Lemma imap_stored_shift logId base (new : list LogEntry) :
  imap (stored logId base ∘ S) new = imap (stored logId (base + 1)) new.
Proof.
  apply imap_ext. intros i e _. unfold compose, stored. f_equal. lia.
Qed.

Lemma append_next_id dir (log : FilesystemLog.t) (entry : LogEntry) :
  FilesystemLog.append NO_ENTRY_ID dir log entry =
    let entry' := mkLogEntry (FilesystemLog.getLogId log) (next_id NO_ENTRY_ID log)
                    (createTime entry) (data entry) (invalidations entry) in
    match dir !! next_id NO_ENTRY_ID log with
    | Some _ => None
    | None =>
        Some (<[next_id NO_ENTRY_ID log := Some (FilesystemLog.written entry')]> dir,
              FilesystemLog.mk (FilesystemLog.getLogId log) (FilesystemLog.path log)
                (next_id NO_ENTRY_ID log) (FilesystemLog.entries log ++ [entry']),
              entry')
    end.
Proof.
  unfold FilesystemLog.append, FilesystemLog.write, next_id. cbn [entryId].
  by destruct (dir !! _).
Qed.

Lemma append_all_stored : ∀ (new : list LogEntry) dir (log : FilesystemLog.t) (base : Z),
  next_id NO_ENTRY_ID log = base →
  0 ≤ base →
  base + Z.of_nat (length new) ≤ 2 ^ 64 →
  base + Z.of_nat (length new) ≤ NO_ENTRY_ID ∨ NO_ENTRY_ID < base →
  (∀ i, base ≤ i < base + Z.of_nat (length new) → dir !! i = None) →
  FilesystemLog.append_all NO_ENTRY_ID dir log new =
    Some (with_files dir (imap (stored (FilesystemLog.getLogId log) base) new),
          FilesystemLog.mk (FilesystemLog.getLogId log) (FilesystemLog.path log)
            (if decide (new = []) then FilesystemLog.headId log
             else base + Z.of_nat (length new) - 1)
            (FilesystemLog.entries log ++ imap (stored (FilesystemLog.getLogId log) base) new),
          imap (stored (FilesystemLog.getLogId log) base) new).
Proof.
  induction new as [|entry rest IH]; intros dir log base Hnext Hlo Hhi Hno Hfree.
  - cbn. rewrite app_nil_r. by destruct log.
  - cbn [FilesystemLog.append_all length] in *.
    rewrite append_next_id, Hnext. cbv zeta.
    rewrite (Hfree base) by lia.
    assert (Hfirst : stored (FilesystemLog.getLogId log) base 0 entry =
                     mkLogEntry (FilesystemLog.getLogId log) base (createTime entry)
                       (data entry) (invalidations entry)).
    { unfold stored. f_equal. lia. }
    destruct rest as [|entry2 rest].
    { cbn [FilesystemLog.append_all imap with_files foldl length].
      rewrite Hfirst. cbn [entryId].
      destruct (decide ([entry] = [])) as [|_]; [done|]. do 4 f_equal. lia. }
    rewrite (IH _ _ (base + 1)); cbn [FilesystemLog.getLogId FilesystemLog.path
                                        FilesystemLog.headId FilesystemLog.entries].
    + rewrite (imap_cons _ entry), imap_stored_shift.
      destruct (decide (entry :: entry2 :: rest = [])) as [|_]; [done|].
      destruct (decide (entry2 :: rest = [])) as [|_]; [done|].
      rewrite Hfirst, <- app_assoc. cbn [app with_files foldl entryId].
      do 4 f_equal. cbn [length]. lia.
    + unfold next_id. cbn [FilesystemLog.headId].
      destruct (Z.eqb_spec base NO_ENTRY_ID) as [Heq|_]; [cbn [length] in *; lia|].
      unfold wrap_entry. apply Z.mod_small. cbn [length] in *. lia.
    + lia.
    + cbn [length] in *. lia.
    + cbn [length] in *. lia.
    + intros i Hi. cbn [entryId]. rewrite lookup_insert_ne by lia. apply Hfree.
      cbn [length] in *. lia.
Qed.

Lemma stored_ids logId base (new : list LogEntry) :
  entryId <$> imap (stored logId base) new =
    (λ i, base + Z.of_nat i) <$> seq 0 (length new).
Proof.
  revert base. induction new as [|e rest IH]; intros base; [reflexivity|].
  rewrite imap_cons, imap_stored_shift. cbn [length seq fmap list_fmap]. f_equal.
  rewrite IH, <- fmap_S_seq, <- list_fmap_compose.
  apply list_fmap_ext. intros _ i _. unfold compose. lia.
Qed.

Lemma ids_sorted (l : list LogEntry) base n :
  entryId <$> l = (λ i, base + Z.of_nat i) <$> seq 0 n →
  StronglySorted (λ a b, entryId a ≤ entryId b) l.
Proof.
  revert base n. induction l as [|e l IH]; intros base n Hids; [constructor|].
  destruct n as [|n]; [discriminate|]. cbn [seq fmap list_fmap] in Hids.
  injection Hids as He Hrest.
  rewrite <- fmap_S_seq, <- list_fmap_compose in Hrest.
  constructor.
  - apply (IH (base + 1) n). rewrite Hrest.
    apply list_fmap_ext. intros _ i _. unfold compose. lia.
  - apply Forall_forall. intros e' He'.
    assert (Hin : entryId e' ∈ entryId <$> l) by (by apply list_elem_of_fmap_2).
    rewrite Hrest in Hin. apply list_elem_of_fmap in Hin as (i & -> & _).
    unfold compose. lia.
Qed.

Lemma filter_ids_drop (l : list LogEntry) : ∀ base n (k : nat),
  entryId <$> l = (λ i, base + Z.of_nat i) <$> seq 0 n →
  filter (λ e, base + Z.of_nat k ≤ entryId e) l = drop k l.
Proof.
  induction l as [|e l IH]; intros base n k Hids; [by destruct k|].
  destruct k as [|k].
  - rewrite drop_0. apply filter_all_pass. apply Forall_forall. intros e' He'.
    assert (Hin : entryId e' ∈ entryId <$> e :: l) by (by apply list_elem_of_fmap_2).
    rewrite Hids in Hin. apply list_elem_of_fmap in Hin as (i & -> & _). lia.
  - destruct n as [|n]; [discriminate|]. cbn [seq fmap list_fmap] in Hids.
    injection Hids as He Hrest.
    rewrite <- fmap_S_seq, <- list_fmap_compose in Hrest.
    assert (Hrest' : entryId <$> l = (λ i, (base + 1) + Z.of_nat i) <$> seq 0 n).
    { rewrite Hrest. apply list_fmap_ext. intros _ i _. unfold compose. lia. }
    rewrite filter_cons.
    destruct (decide (base + Z.of_nat (S k) ≤ entryId e)); [lia|].
    cbn [drop]. rewrite <- (IH (base + 1) n k Hrest').
    apply list_filter_iff. intros x. lia.
Qed.

End Appending.

(** X17.  Appending to a log without entries numbers the entries from 0:
    the i-th appended entry is stored with the log's id and entry id i, its
    creation time, data and invalidations unchanged; the entries are reported
    to the callbacks in order, each gets its file, and the head is the last
    id.  readFrom k then returns the entries from the k-th on.  (For a
    directory that has no file with one of these ids yet, and as long as the
    ids stay below NO_ENTRY_ID and 2^64.) *)
Theorem appends_number_entries (NO_ENTRY_ID logId : Z) (path : string)
    (dir : FilesystemLog.Directory) (new : list LogEntry) :
  Z.of_nat (length new) ≤ 2 ^ 64 →
  Z.of_nat (length new) ≤ NO_ENTRY_ID ∨ NO_ENTRY_ID < 0 →
  (∀ i, 0 ≤ i < Z.of_nat (length new) → dir !! i = None) →
  ∃ log,
    FilesystemLog.append_all NO_ENTRY_ID dir
      (FilesystemLog.empty_log NO_ENTRY_ID logId path) new =
      Some (with_files dir (FilesystemLog.entries log), log, FilesystemLog.entries log) ∧
    FilesystemLog.entries log = imap (stored logId 0) new ∧
    (new ≠ [] → FilesystemLog.headId log = Z.of_nat (length new) - 1) ∧
    ∀ k : nat, FilesystemLog.readFrom log (Z.of_nat k) = drop k (FilesystemLog.entries log).
Proof.
  intros Hhi Hno Hfree.
  exists (FilesystemLog.mk logId path
            (if decide (new = []) then NO_ENTRY_ID else 0 + Z.of_nat (length new) - 1)
            (imap (stored logId 0) new)).
  split.
  - rewrite (append_all_stored NO_ENTRY_ID new _ _ 0); [| |lia|lia|lia|].
    + cbn [FilesystemLog.getLogId FilesystemLog.empty_log FilesystemLog.entries app
             FilesystemLog.headId FilesystemLog.path].
      reflexivity.
    + unfold next_id, FilesystemLog.empty_log. cbn. by rewrite Z.eqb_refl.
    + intros i Hi. apply Hfree. lia.
  - cbn [FilesystemLog.entries FilesystemLog.headId]. split; [reflexivity|]. split.
    + intros Hne. destruct (decide (new = [])); [done|lia].
    + intros k.
      rewrite readFrom_sorted_filter; cbn [FilesystemLog.entries].
      * replace (Z.of_nat k) with (0 + Z.of_nat k) by lia.
        eapply filter_ids_drop, stored_ids.
      * eapply ids_sorted, stored_ids.
Qed.

Lemma appends_number_entries_witness :
  ∃ log,
    FilesystemLog.append_all (2 ^ 64 - 1) ∅ (FilesystemLog.empty_log (2 ^ 64 - 1) 7 "/log")
      [mkLogEntry 0 0 11 (Some "a") []; mkLogEntry 0 0 12 None [5]] =
      Some (with_files ∅ (FilesystemLog.entries log), log, FilesystemLog.entries log) ∧
    FilesystemLog.entries log =
      [mkLogEntry 7 0 11 (Some "a") []; mkLogEntry 7 1 12 None [5]] ∧
    FilesystemLog.readFrom log 1 = [mkLogEntry 7 1 12 None [5]].
Proof.
  destruct (appends_number_entries (2 ^ 64 - 1) 7 "/log" ∅
              [mkLogEntry 0 0 11 (Some "a") []; mkLogEntry 0 0 12 None [5]])
    as (log & Happ & He & _ & Hr).
  - simpl. lia.
  - left. simpl. lia.
  - intros i _. apply lookup_empty.
  - exists log. split; [exact Happ|]. split; [exact He|].
    change 1 with (Z.of_nat 1). rewrite (Hr 1%nat), He. reflexivity.
Defined.

(** ** Opening a log *)

Lemma written_entry_of logId id contents :
  FilesystemLog.written (entry_of logId id contents) = contents.
Proof. by destruct contents. Qed.

Section Opening.

Variable NO_ENTRY_ID : Z.

Lemma read_Some dir (log log' : FilesystemLog.t) (id : Z) :
  FilesystemLog.read NO_ENTRY_ID dir log id = Some log' ↔
  ∃ contents,
    dir !! id = Some (Some contents) ∧ fits_chunk (file_data contents) ∧
    log' = FilesystemLog.mk (FilesystemLog.getLogId log) (FilesystemLog.path log)
             (if (FilesystemLog.headId log =? NO_ENTRY_ID) ||
                 (FilesystemLog.headId log <? id)
              then id else FilesystemLog.headId log)
             (FilesystemLog.entries log ++ [entry_of (FilesystemLog.getLogId log) id contents]).
Proof.
  unfold FilesystemLog.read, fits_chunk, entry_of.
  destruct (dir !! id) as [[contents|]|]; [|by split; [|intros (? & ? & _)]..].
  destruct (file_data contents) as [bytes|] eqn:Hdata.
  - destruct (Z.leb_spec (2 ^ 32) (Z.of_nat (String.length bytes))) as [Hbig|Hsmall].
    + split; [done|]. intros (c & [= <-] & Hfit & _). rewrite Hdata in Hfit. lia.
    + split.
      * intros [= <-]. exists contents. by rewrite Hdata.
      * intros (c & [= <-] & _ & ->). by rewrite Hdata.
  - split.
    + intros [= <-]. exists contents. by rewrite Hdata.
    + intros (c & [= <-] & _ & ->). by rewrite Hdata.
Qed.

Lemma read_is_Some dir (log : FilesystemLog.t) (id : Z) :
  is_Some (FilesystemLog.read NO_ENTRY_ID dir log id) ↔ readable dir id.
Proof.
  split.
  - intros [log' Hread]. apply read_Some in Hread as (c & Hc & Hfit & _). by exists c.
  - intros (c & Hc & Hfit). eexists. apply read_Some. by exists c.
Qed.

Lemma read_all_app dir : ∀ (ids1 ids2 : list Z) (log : FilesystemLog.t),
  FilesystemLog.read_all NO_ENTRY_ID dir log (ids1 ++ ids2) =
    FilesystemLog.read_all NO_ENTRY_ID dir log ids1 ≫=
      λ log', FilesystemLog.read_all NO_ENTRY_ID dir log' ids2.
Proof.
  induction ids1 as [|id ids1 IH]; intros ids2 log; [reflexivity|].
  cbn [app FilesystemLog.read_all].
  destruct (FilesystemLog.read NO_ENTRY_ID dir log id) as [log1|]; [apply IH|reflexivity].
Qed.

Lemma read_all_is_Some dir : ∀ (ids : list Z) (log : FilesystemLog.t),
  is_Some (FilesystemLog.read_all NO_ENTRY_ID dir log ids) ↔ Forall (readable dir) ids.
Proof.
  induction ids as [|id ids IH]; intros log.
  - split; [constructor|by eexists].
  - cbn [FilesystemLog.read_all]. rewrite Forall_cons, <- (read_is_Some dir log id).
    destruct (FilesystemLog.read NO_ENTRY_ID dir log id) as [log1|].
    + rewrite IH. split; [by split|by intros [_ ?]].
    + split; [by intros [? ?]|by intros [[? ?] _]].
Qed.

(** What the loop of the constructor leaves: the entries of the files in
    the order of [ids], and the last id as the head when the ids ascend. *)
Lemma read_all_entries dir : ∀ (ids : list Z) (log log' : FilesystemLog.t),
  FilesystemLog.read_all NO_ENTRY_ID dir log ids = Some log' →
  FilesystemLog.getLogId log' = FilesystemLog.getLogId log ∧
  FilesystemLog.path log' = FilesystemLog.path log ∧
  ∃ es,
    FilesystemLog.entries log' = (FilesystemLog.entries log ++ es)%list ∧
    entryId <$> es = ids ∧
    Forall (λ e, logId e = FilesystemLog.getLogId log ∧
                 dir !! entryId e = Some (Some (FilesystemLog.written e))) es.
Proof.
  induction ids as [|id ids IH]; intros log log' Hread.
  - injection Hread as <-. do 2 (split; [reflexivity|]).
    exists []. by rewrite app_nil_r.
  - cbn [FilesystemLog.read_all] in Hread.
    destruct (FilesystemLog.read NO_ENTRY_ID dir log id) as [log1|] eqn:Hone; [|done].
    apply read_Some in Hone as (c & Hc & Hfit & ->).
    apply IH in Hread as (Hid & Hpath & es & Hes & Hids & Hall).
    cbn [FilesystemLog.getLogId FilesystemLog.path FilesystemLog.entries] in *.
    do 2 (split; [done|]).
    exists (entry_of (FilesystemLog.getLogId log) id c :: es).
    split; [by rewrite Hes, <- app_assoc|]. split; [by rewrite <- Hids|].
    constructor; [|done]. split; [reflexivity|].
    by rewrite written_entry_of.
Qed.

Lemma read_all_headId dir : ∀ (ids : list Z) (log log' : FilesystemLog.t),
  StronglySorted Z.le ids →
  FilesystemLog.headId log = NO_ENTRY_ID ∨ Forall (λ id, FilesystemLog.headId log ≤ id) ids →
  FilesystemLog.read_all NO_ENTRY_ID dir log ids = Some log' →
  FilesystemLog.headId log' = default (FilesystemLog.headId log) (last ids).
Proof.
  induction ids as [|id ids IH]; intros log log' Hsorted Hhead Hread.
  - by injection Hread as <-.
  - cbn [FilesystemLog.read_all] in Hread.
    destruct (FilesystemLog.read NO_ENTRY_ID dir log id) as [log1|] eqn:Hone; [|done].
    apply read_Some in Hone as (c & _ & _ & Hlog1).
    apply StronglySorted_inv in Hsorted as [Hsorted Hle].
    assert (Hid : FilesystemLog.headId log1 = id).
    { rewrite Hlog1. cbn [FilesystemLog.headId].
      destruct (Z.eqb_spec (FilesystemLog.headId log) NO_ENTRY_ID) as [|Hne]; [done|].
      destruct Hhead as [|Hhead]; [done|]. apply Forall_cons in Hhead as [Hhead _].
      cbn [orb]. destruct (Z.ltb_spec (FilesystemLog.headId log) id); lia. }
    rewrite (IH log1 log' Hsorted); [| |done].
    + rewrite Hid. destruct ids as [|id2 ids]; [reflexivity|].
      rewrite (last_cons id (id2 :: ids)). by destruct (last (id2 :: ids)).
    + right. by rewrite Hid.
Qed.

Lemma read_all_other_file dir (id : Z) (file : option EntryFile) :
  ∀ (ids : list Z) (log : FilesystemLog.t),
  id ∉ ids →
  FilesystemLog.read_all NO_ENTRY_ID (<[id := file]> dir) log ids =
    FilesystemLog.read_all NO_ENTRY_ID dir log ids.
Proof.
  induction ids as [|id2 ids IH]; intros log Hnotin; [reflexivity|].
  apply not_elem_of_cons in Hnotin as [Hne Hnotin].
  cbn [FilesystemLog.read_all]. unfold FilesystemLog.read.
  rewrite lookup_insert_ne by done.
  destruct (dir !! id2) as [[c|]|]; [|done..].
  destruct (match file_data c with Some _ => _ | None => _ end); [done|].
  by apply IH.
Qed.

Lemma sorted_ids_entries (es : list LogEntry) :
  StronglySorted Z.le (entryId <$> es) →
  StronglySorted (λ a b, entryId a ≤ entryId b) es.
Proof.
  induction es as [|e es IH]; [constructor|].
  cbn [fmap list_fmap]. intros [Hsorted Hle]%StronglySorted_inv.
  constructor; [by apply IH|]. rewrite Forall_fmap in Hle. exact Hle.
Qed.

Lemma merge_sort_strongly (ids : list Z) : StronglySorted Z.le (merge_sort Z.le ids).
Proof. apply StronglySorted_merge_sort; apply _. Qed.

Lemma open_spec dir (lid : Z) (path : string) (ids : list Z) (log : FilesystemLog.t) :
  FilesystemLog.open NO_ENTRY_ID dir lid path ids = Some log →
  FilesystemLog.getLogId log = lid ∧
  FilesystemLog.path log = path ∧
  entryId <$> FilesystemLog.entries log = merge_sort Z.le ids ∧
  Forall (λ e, logId e = lid ∧
               dir !! entryId e = Some (Some (FilesystemLog.written e)))
    (FilesystemLog.entries log) ∧
  FilesystemLog.headId log = default NO_ENTRY_ID (last (merge_sort Z.le ids)).
Proof.
  unfold FilesystemLog.open. intros Hread.
  assert (Hhead : FilesystemLog.headId log =
                  default NO_ENTRY_ID (last (merge_sort Z.le ids))).
  { apply (read_all_headId _ _ _ _ (merge_sort_strongly ids)) in Hread; [done|by left]. }
  apply read_all_entries in Hread as (Hid & Hpath & es & Hes & Hids & Hall).
  cbn [FilesystemLog.empty_log FilesystemLog.getLogId FilesystemLog.path
         FilesystemLog.entries FilesystemLog.headId app] in *.
  rewrite Hes. done.
Qed.

End Opening.

Section Reopening.

Variable NO_ENTRY_ID : Z.

Lemma merge_sort_snoc (ids : list Z) (id : Z) (ids' : list Z) :
  (∀ i, i ∈ ids → i < id) →
  ids' ≡ₚ (ids ++ [id])%list →
  merge_sort Z.le ids' = (merge_sort Z.le ids ++ [id])%list.
Proof.
  intros Hbelow Hperm. apply (StronglySorted_unique Z.le).
  - apply merge_sort_strongly.
  - apply StronglySorted_app_2.
    + intros i j Hi ->%list_elem_of_singleton.
      rewrite merge_sort_Permutation in Hi. apply Hbelow in Hi. lia.
    + apply merge_sort_strongly.
    + repeat constructor.
  - by rewrite !merge_sort_Permutation.
Qed.

Lemma merge_sort_perm (ids ids' : list Z) :
  ids' ≡ₚ ids → merge_sort Z.le ids' = merge_sort Z.le ids.
Proof.
  intros Hperm. apply (StronglySorted_unique Z.le); [apply merge_sort_strongly..|].
  by rewrite !merge_sort_Permutation.
Qed.

Lemma reopen_step dir0 (lid : Z) (path : string) (ids0 : list Z) (log0 : FilesystemLog.t)
    (e : LogEntry) dir1 (log1 : FilesystemLog.t) (e' : LogEntry) (ids1 : list Z) :
  FilesystemLog.open NO_ENTRY_ID dir0 lid path ids0 = Some log0 →
  FilesystemLog.append NO_ENTRY_ID dir0 log0 e = Some (dir1, log1, e') →
  (∀ i, i ∈ ids0 → i < entryId e') →
  fits_chunk (data e) →
  ids1 ≡ₚ (ids0 ++ [entryId e'])%list →
  FilesystemLog.open NO_ENTRY_ID dir1 lid path ids1 = Some log1.
Proof.
  intros Hopen Happ Hbelow Hfit Hperm.
  rewrite append_next_id in Happ. cbv zeta in Happ.
  destruct (dir0 !! next_id NO_ENTRY_ID log0) as [|] eqn:Hfree; [done|].
  injection Happ as <- <- <-. cbn [entryId] in *.
  unfold FilesystemLog.open.
  rewrite (merge_sort_snoc ids0 _ ids1 Hbelow Hperm), read_all_app.
  rewrite read_all_other_file.
  2:{ intros Hin. rewrite merge_sort_Permutation in Hin. apply Hbelow in Hin. lia. }
  fold (FilesystemLog.open NO_ENTRY_ID dir0 lid path ids0). rewrite Hopen.
  cbn [mbind option_bind FilesystemLog.read_all].
  apply open_spec in Hopen as (_ & _ & _ & _ & Hhead).
  assert (Hnew : (FilesystemLog.headId log0 =? NO_ENTRY_ID) ||
                 (FilesystemLog.headId log0 <? next_id NO_ENTRY_ID log0) = true).
  { destruct (Z.eqb_spec (FilesystemLog.headId log0) NO_ENTRY_ID) as [|Hne]; [done|].
    cbn [orb]. apply Z.ltb_lt.
    destruct (last (merge_sort Z.le ids0)) as [l|] eqn:Hlast; [|done].
    rewrite Hhead. cbn [default]. apply Hbelow.
    apply last_Some_elem_of in Hlast. by rewrite merge_sort_Permutation in Hlast. }
  erewrite (proj2 (read_Some _ _ _ _ _)); [reflexivity|].
  eexists. split; [apply lookup_insert_eq|]. split; [exact Hfit|].
  by rewrite Hnew.
Qed.

End Reopening.

(** X18.  Two FilesystemLog objects with the same head, as after opening
    the same directory twice: once one of them has appended an entry, an
    append on the other panics, because the file of its next id exists. *)
Theorem second_appender_panics (NO_ENTRY_ID : Z) dir (log1 log2 : FilesystemLog.t)
    (e1 e2 : LogEntry) dir' (log1' : FilesystemLog.t) (e1' : LogEntry) :
  FilesystemLog.headId log2 = FilesystemLog.headId log1 →
  FilesystemLog.append NO_ENTRY_ID dir log1 e1 = Some (dir', log1', e1') →
  FilesystemLog.append NO_ENTRY_ID dir' log2 e2 = None.
Proof.
  intros Hhead Happ. rewrite append_next_id in *. cbv zeta in *.
  destruct (dir !! next_id NO_ENTRY_ID log1) as [|]; [done|].
  injection Happ as <- _ _.
  assert (Hnext : next_id NO_ENTRY_ID log2 = next_id NO_ENTRY_ID log1).
  { unfold next_id. by rewrite Hhead. }
  by rewrite Hnext, lookup_insert_eq.
Qed.

Lemma second_appender_panics_witness :
  let log := FilesystemLog.empty_log (2 ^ 64 - 1) 7 "/log" in
  let e := mkLogEntry 0 0 11 (Some "a") [] in
  FilesystemLog.append (2 ^ 64 - 1) ∅ log e =
    Some ({[ 0 := Some (mkEntryFile 11 (Some "a") []) ]},
          FilesystemLog.mk 7 "/log" 0 [mkLogEntry 7 0 11 (Some "a") []],
          mkLogEntry 7 0 11 (Some "a") []) ∧
  FilesystemLog.append (2 ^ 64 - 1) {[ 0 := Some (mkEntryFile 11 (Some "a") []) ]} log e = None.
Proof.
  cbv zeta.
  assert (Hfirst : FilesystemLog.append (2 ^ 64 - 1) ∅
                     (FilesystemLog.empty_log (2 ^ 64 - 1) 7 "/log")
                     (mkLogEntry 0 0 11 (Some "a") []) =
                   Some ({[ 0 := Some (mkEntryFile 11 (Some "a") []) ]},
                         FilesystemLog.mk 7 "/log" 0 [mkLogEntry 7 0 11 (Some "a") []],
                         mkLogEntry 7 0 11 (Some "a") [])) by reflexivity.
  split; [exact Hfirst|].
  exact (second_appender_panics _ _ _ _ _ _ _ _ _ eq_refl Hfirst).
Defined.

(** X19.  What is appended is what a later open reads back.  Take a log
    opened from a directory, append entries whose data fit a Chunk, and open
    the resulting directory again from a listing of the old ids and the new
    ones, in any order: the second open returns the log as the appends left
    it.  (Provided the ids assigned grow and lie above the ids that were in
    the directory, that is, before the id counter wraps.) *)
Theorem reopen_after_appends (NO_ENTRY_ID : Z) dir0 (lid : Z) (path : string)
    (ids0 : list Z) (log0 : FilesystemLog.t) (new : list LogEntry) dir1
    (log1 : FilesystemLog.t) (reported : list LogEntry) (ids1 : list Z) :
  FilesystemLog.open NO_ENTRY_ID dir0 lid path ids0 = Some log0 →
  FilesystemLog.append_all NO_ENTRY_ID dir0 log0 new = Some (dir1, log1, reported) →
  Forall (λ e, fits_chunk (data e)) new →
  (∀ i j, i ∈ ids0 → j ∈ entryId <$> reported → i < j) →
  StronglySorted Z.lt (entryId <$> reported) →
  ids1 ≡ₚ (ids0 ++ (entryId <$> reported))%list →
  FilesystemLog.open NO_ENTRY_ID dir1 lid path ids1 = Some log1.
Proof.
  revert dir0 ids0 log0 dir1 log1 reported ids1.
  induction new as [|e rest IH];
    intros dir0 ids0 log0 dir1 log1 reported ids1 Hopen Happ Hfit Hbelow Hsorted Hperm.
  - injection Happ as <- <- <-. rewrite app_nil_r in Hperm.
    unfold FilesystemLog.open in *. by rewrite (merge_sort_perm ids0 ids1 Hperm).
  - cbn [FilesystemLog.append_all] in Happ.
    destruct (FilesystemLog.append NO_ENTRY_ID dir0 log0 e) as [[[dirA logA] e']|] eqn:Hone;
      [|done].
    destruct (FilesystemLog.append_all NO_ENTRY_ID dirA logA rest)
      as [[[dirB logB] reported']|] eqn:Hrest; [|done].
    injection Happ as <- <- <-. cbn [fmap list_fmap] in *.
    apply Forall_cons in Hfit as [Hfit Hfits].
    apply StronglySorted_inv in Hsorted as [Hsorted Hfirst].
    rewrite Forall_forall in Hfirst.
    apply (IH dirA (ids0 ++ [entryId e'])%list logA dirB logB reported' ids1);
      [|done|done| |done|].
    + apply (reopen_step NO_ENTRY_ID dir0 lid path ids0 log0 e dirA logA e');
        [done|done| |done|done].
      intros i Hi. apply Hbelow; [done|]. by left.
    + intros i j [Hi| ->%list_elem_of_singleton]%elem_of_app Hj.
      * apply Hbelow; [done|]. by right.
      * by apply Hfirst.
    + by rewrite Hperm, <- app_assoc.
Qed.

(** X20.  A log that opens has its entries in ascending order of their
    ids, one per listed id (a doubly listed id is read twice), each with the
    log's id and the content of its file; the head is the largest id, or
    NO_ENTRY_ID when there is none; and readFrom returns exactly the entries
    with an id of at least [start]. *)
Theorem open_reads_in_id_order (NO_ENTRY_ID : Z) dir (lid : Z) (path : string)
    (ids : list Z) (log : FilesystemLog.t) :
  FilesystemLog.open NO_ENTRY_ID dir lid path ids = Some log →
  FilesystemLog.getLogId log = lid ∧
  FilesystemLog.path log = path ∧
  entryId <$> FilesystemLog.entries log = merge_sort Z.le ids ∧
  Forall (λ e, logId e = lid ∧ dir !! entryId e = Some (Some (FilesystemLog.written e)))
    (FilesystemLog.entries log) ∧
  FilesystemLog.headId log = default NO_ENTRY_ID (last (merge_sort Z.le ids)) ∧
  ∀ start, FilesystemLog.readFrom log start =
             filter (λ e, start ≤ entryId e) (FilesystemLog.entries log).
Proof.
  intros Hopen. apply open_spec in Hopen as (Hid & Hpath & Hids & Hall & Hhead).
  do 5 (split; [done|]). intros start. apply readFrom_sorted_filter.
  apply sorted_ids_entries. rewrite Hids. apply merge_sort_strongly.
Qed.

Lemma open_is_Some_iff (NO_ENTRY_ID : Z) dir (lid : Z) (path : string) (ids : list Z) :
  is_Some (FilesystemLog.open NO_ENTRY_ID dir lid path ids) ↔ Forall (readable dir) ids.
Proof.
  unfold FilesystemLog.open. rewrite read_all_is_Some.
  by rewrite merge_sort_Permutation.
Qed.

(** X21.  Constructing a log over a directory whose listed entry files
    hold data within the 32-bit length of a Chunk succeeds exactly when
    mkdir returned 0 or failed with EEXIST, and every listed id has a file
    that exists and parses.  A mkdir that fails otherwise, or one missing or
    unparsable file, makes the constructor panic. *)
Theorem new_succeeds_iff (NO_ENTRY_ID mkdir_r : Z) (mkdir_errno : FilesystemLog.MkdirErrno)
    dir (lid : Z) (path : string) (ids : list Z) :
  Forall (λ id, ∀ c, dir !! id = Some (Some c) → fits_chunk (file_data c)) ids →
  is_Some (FilesystemLog.new NO_ENTRY_ID mkdir_r mkdir_errno dir lid path ids) ↔
    (mkdir_r = 0 ∨ mkdir_errno = FilesystemLog.EEXIST) ∧
    Forall (λ id, ∃ c, dir !! id = Some (Some c)) ids.
Proof.
  intros Hfit.
  assert (Hopen : is_Some (FilesystemLog.open NO_ENTRY_ID dir lid path ids) ↔
                  Forall (λ id, ∃ c, dir !! id = Some (Some c)) ids).
  { rewrite open_is_Some_iff, !Forall_forall. unfold readable. split.
    - intros Hall id Hid. destruct (Hall id Hid) as (c & Hc & _). eauto.
    - intros Hall id Hid. destruct (Hall id Hid) as (c & Hc). exists c. split; [done|].
      rewrite Forall_forall in Hfit. by apply (Hfit id Hid). }
  unfold FilesystemLog.new.
  destruct (Z.eqb_spec mkdir_r 0) as [Hzero|Hfailed]; cbn [negb].
  - rewrite Hopen. split; [by auto|by intros [_ ?]].
  - destruct mkdir_errno as [|code].
    + rewrite Hopen. split; [by auto|by intros [_ ?]].
    + split; [by intros [? ?]|]. intros [[?|?] _]; done.
Qed.

Lemma new_succeeds_iff_witness :
  let dir : FilesystemLog.Directory :=
    {[ 0 := Some (mkEntryFile 11 (Some "a") []); 1 := None ]} in
  is_Some (FilesystemLog.new (2 ^ 64 - 1) (-1) FilesystemLog.EEXIST dir 7 "/log" [0]) ∧
  ¬ is_Some (FilesystemLog.new (2 ^ 64 - 1) (-1) FilesystemLog.EEXIST dir 7 "/log" [1; 0]) ∧
  ¬ is_Some (FilesystemLog.new (2 ^ 64 - 1) (-1) (FilesystemLog.OtherMkdirErrno 13)
               dir 7 "/log" [0]).
Proof.
  cbv zeta.
  assert (Hfit : ∀ ids,
            Forall (λ id, ∀ c,
                      ({[ 0 := Some (mkEntryFile 11 (Some "a") []); 1 := None ]}
                         : FilesystemLog.Directory) !! id = Some (Some c) →
                      fits_chunk (file_data c)) ids).
  { intros ids. apply Forall_forall. intros id _ c Hc.
    destruct (decide (id = 0)) as [->|Hne].
    - rewrite lookup_insert_eq in Hc. injection Hc as <-. simpl. lia.
    - rewrite lookup_insert_ne in Hc by done.
      apply lookup_singleton_Some in Hc as [_ Hc]. discriminate. }
  split; [|split].
  - apply (new_succeeds_iff _ _ _ _ _ _ _ (Hfit [0])).
    split; [by right|]. repeat constructor. eexists. apply lookup_insert_eq.
  - intros Hsome. apply (new_succeeds_iff _ _ _ _ _ _ _ (Hfit [1; 0])) in Hsome as [_ Hall].
    apply Forall_cons in Hall as [[c Hc] _].
    rewrite lookup_insert_ne in Hc by done.
    apply lookup_singleton_Some in Hc as [_ Hc]. discriminate.
  - intros Hsome. apply (new_succeeds_iff _ _ _ _ _ _ _ (Hfit [0])) in Hsome as [[?|?] _];
      discriminate.
Defined.

(** ** Examples on a log of two entries *)

Lemma readFrom_sorted_witness :
  FilesystemLog.readFrom
    (FilesystemLog.mk 7 "/log" 4
       [mkLogEntry 7 1 11 None []; mkLogEntry 7 3 12 None []; mkLogEntry 7 4 13 None []]) 2 =
    [mkLogEntry 7 3 12 None []; mkLogEntry 7 4 13 None []].
Proof.
  rewrite readFrom_sorted; [reflexivity|].
  cbn [FilesystemLog.entries]. repeat constructor; simpl; lia.
Defined.

Lemma reopen_after_appends_witness :
  ∃ dir log reported,
    FilesystemLog.append_all (2 ^ 64 - 1) ∅ (FilesystemLog.empty_log (2 ^ 64 - 1) 7 "/log")
      [mkLogEntry 0 0 11 (Some "a") []; mkLogEntry 0 0 12 None [5]] =
      Some (dir, log, reported) ∧
    FilesystemLog.open (2 ^ 64 - 1) dir 7 "/log" [1; 0] = Some log.
Proof.
  eexists _, _, _. split; [reflexivity|].
  apply (reopen_after_appends (2 ^ 64 - 1) ∅ 7 "/log" []
           (FilesystemLog.empty_log (2 ^ 64 - 1) 7 "/log")
           [mkLogEntry 0 0 11 (Some "a") []; mkLogEntry 0 0 12 None [5]] _ _
           [mkLogEntry 7 0 11 (Some "a") []; mkLogEntry 7 1 12 None [5]]).
  - reflexivity.
  - reflexivity.
  - repeat constructor; simpl; lia.
  - intros i j Hi. by apply elem_of_nil in Hi.
  - repeat constructor; simpl; lia.
  - simpl. apply Permutation_swap.
Defined.

Lemma open_reads_in_id_order_witness :
  let dir : FilesystemLog.Directory :=
    {[ 0 := Some (mkEntryFile 11 (Some "a") []); 1 := Some (mkEntryFile 12 None [5]) ]} in
  let log := FilesystemLog.mk 7 "/log" 1
               [mkLogEntry 7 0 11 (Some "a") []; mkLogEntry 7 1 12 None [5]] in
  FilesystemLog.open (2 ^ 64 - 1) dir 7 "/log" [1; 0] = Some log ∧
  FilesystemLog.headId log = default (2 ^ 64 - 1) (last (merge_sort Z.le [1; 0])) ∧
  ∀ start, FilesystemLog.readFrom log start =
             filter (λ e, start ≤ entryId e) (FilesystemLog.entries log).
Proof.
  cbv zeta.
  assert (Hopen : FilesystemLog.open (2 ^ 64 - 1)
                    {[ 0 := Some (mkEntryFile 11 (Some "a") []);
                       1 := Some (mkEntryFile 12 None [5]) ]} 7 "/log" [1; 0] =
                  Some (FilesystemLog.mk 7 "/log" 1
                          [mkLogEntry 7 0 11 (Some "a") []; mkLogEntry 7 1 12 None [5]]))
    by reflexivity.
  split; [exact Hopen|].
  destruct (open_reads_in_id_order _ _ _ _ _ _ Hopen) as (_ & _ & _ & _ & Hhead & Hread).
  split; [exact Hhead|exact Hread].
Defined.
